(** * Dense vectors and matrices of [utilities/linear_algebra]

    A shallow embedding of [dense_vector.cpp] and of the [matrix<T>]
    container of [dense_matrix.hpp].

    - A [std::vector<T>] is a [list T]; a pointer into a vector is the vector
      together with an index.
    - [int] and [unsigned int] variables are integers in [Z]; every
      conversion and every unsigned operation is written with its 32-bit
      wrap-around ([to_int], [to_uint]).
    - An access outside a buffer through [operator[]] or a raw pointer has no
      defined result: the functions return [option], [None] standing for it
      (and for a loop whose iteration budget ran out).  The checked access
      [std::vector::at] throws instead: [OutOfRange].
    - The scalar arithmetic is the interface [Scalar]; [double] is its
      instance on binary64 floating-point numbers.
    - The BLAS kernels take their lengths as [int]: the statements about the
      functions that call them carry the hypothesis that the sizes involved
      fit an [int]. *)

From Stdlib Require Import ZArith Lia Bool Sorted.
From Stdlib Require Import Floats.
From stdpp Require Import base option list.

Local Open Scope Z_scope.

(** ** Machine integers *)

(** Value of an integer expression once stored in an [int] (32-bit two's
    complement); an [int] sum that overflows is taken to wrap as well. *)
Definition to_int (z : Z) : Z := (z + 2 ^ 31) mod 2 ^ 32 - 2 ^ 31.

(** Value of an integer expression computed in [unsigned int]. *)
Definition to_uint (z : Z) : Z := z mod 2 ^ 32.

(** [v.size()] *)
Definition size {A} (v : list A) : Z := Z.of_nat (length v).

(** ** Scalars *)

Class Scalar (T : Type) := {
  s0 : T;                    (* 0.0 *)
  s1 : T;                    (* 1.0 *)
  sadd : T -> T -> T;
  ssub : T -> T -> T;
  smul : T -> T -> T;
  sopp : T -> T;
  seqb : T -> T -> bool      (* the comparison [==] *)
}.

(** IEEE-754 binary64, the [double] of the sources. *)
#[export] Instance double : Scalar float := {|
  s0 := 0%float;
  s1 := 1%float;
  sadd := PrimFloat.add;
  ssub := PrimFloat.sub;
  smul := PrimFloat.mul;
  sopp := PrimFloat.opp;
  seqb := PrimFloat.eqb
|}.

(** Exact integer arithmetic, used to run the kernels where rounding plays no
    part. *)
#[export] Instance exact : Scalar Z := {|
  s0 := 0;
  s1 := 1;
  sadd := Z.add;
  ssub := Z.sub;
  smul := Z.mul;
  sopp := Z.opp;
  seqb := Z.eqb
|}.

(** ** The BLAS copy *)

Section Copy.
Context {T : Type}.

(** The buffer after copying [N] elements of [inp], read from position [i],
    to position [o] of [out]. *)
Definition copied (out : list T) (o : Z) (inp : list T) (i N : Z) : list T :=
  take (Z.to_nat o) out
  ++ take (Z.to_nat N) (drop (Z.to_nat i) inp)
  ++ drop (Z.to_nat (o + N)) out.

(** Modelled from the spec: the BLAS kernel [ccopy_] behind [CopyVector] is
    declared in [blas.hpp], outside the sources.  "[CopyVector(out, in, n)]:
    copies [n] contiguous scalars" (the [n] elements that [ccopy_] moves have
    the width of a [double]); as every BLAS copy it returns at once when
    [n <= 0].  [out] and [inp] are the vectors pointed into, [o] and [i] the
    indices of the first element written and read.

    [CopyVector(double* out, const double* in, const int N)] *)
Definition CopyVector (out : list T) (o : Z) (inp : list T) (i : Z) (N : Z)
  : option (list T) :=
  if N <=? 0 then Some out
  else if (0 <=? o) && (o + N <=? size out) && (0 <=? i) && (i + N <=? size inp)
  then Some (copied out o inp i N)
  else None.

(** ** Sub-vector packing *)

(** The loop of [ToSubVector] over [zeros], from the state
    [(nnzCumulative, nzStart)]; returns the sub vector and the final state. *)
Fixpoint ToSubVector_loop (zeros : list Z) (sub input : list T)
  (nnzCumulative nzStart : Z) : option (list T * Z * Z) :=
  match zeros with
  | [] => Some (sub, nnzCumulative, nzStart)
  | it_zeros :: zeros' =>
      let nnzConsecutive := to_int (to_uint (it_zeros - nzStart)) in
      sub' ← (if nnzConsecutive =? 0 then Some sub
              else CopyVector sub nzStart input nnzCumulative nnzConsecutive);
      ToSubVector_loop zeros' sub' input
        (to_int (nnzCumulative + nnzConsecutive))
        (to_int (to_uint (it_zeros + 1)))
  end.

(** [ToSubVector(dvec& sub, const dvec& input, const unsigned int offset,
                 const std::vector<unsigned int>& zeros)] *)
Definition ToSubVector (sub input : list T) (offset : Z) (zeros : list Z)
  : option (list T) :=
  '(sub', nnzCumulative, nzStart) ←
    ToSubVector_loop zeros sub input (to_int offset) 0;
  let nnzConsecutive := to_int (size sub' - nzStart) in
  CopyVector sub' nzStart input nnzCumulative nnzConsecutive.

(** The overload without [zeros]:
    [ToSubVector(dvec& sub, const dvec& input, const unsigned int offset)] *)
Definition ToSubVector_nozeros (sub input : list T) (offset : Z)
  : option (list T) :=
  let N := to_int (size sub) in
  CopyVector sub 0 input offset N.

(** The loop of [FromSubVector]. *)
Fixpoint FromSubVector_loop (zeros : list Z) (sub output : list T)
  (nnzCumulative nzStart : Z) : option (list T * Z * Z) :=
  match zeros with
  | [] => Some (output, nnzCumulative, nzStart)
  | it_zeros :: zeros' =>
      let nnzConsecutive := to_int (to_uint (it_zeros - nzStart)) in
      output' ← (if nnzConsecutive =? 0 then Some output
                 else CopyVector output nnzCumulative sub nzStart nnzConsecutive);
      FromSubVector_loop zeros' sub output'
        (to_int (nnzCumulative + nnzConsecutive))
        (to_int (to_uint (it_zeros + 1)))
  end.

(** [FromSubVector(const dvec& sub, dvec& output, const unsigned int offset,
                   const std::vector<unsigned int>& zeros)] *)
Definition FromSubVector (sub output : list T) (offset : Z) (zeros : list Z)
  : option (list T) :=
  '(output', nnzCumulative, nzStart) ←
    FromSubVector_loop zeros sub output (to_int offset) 0;
  let nnzConsecutive := to_int (size sub - nzStart) in
  CopyVector output' nnzCumulative sub nzStart nnzConsecutive.

(** The overload without [zeros]:
    [FromSubVector(const dvec& sub, dvec& output, const unsigned int offset)] *)
Definition FromSubVector_nozeros (sub output : list T) (offset : Z)
  : option (list T) :=
  let N := to_int (size sub) in
  CopyVector output offset sub 0 N.

End Copy.

(** ** BLAS kernels on scalars *)

Section Kernels.
Context {T : Type} `{Scalar T}.

(** A counted loop [DO i = first, first + count - 1] threading a state. *)
Fixpoint do_loop {State : Type} (body : nat -> State -> option State)
  (first count : nat) (s : State) : option State :=
  match count with
  | O => Some s
  | S count' => s' ← body first s; do_loop body (S first) count' s'
  end.

(** Modelled from the spec: the BLAS kernel [daxpy_] (scaled-accumulate,
    declared in [blas.hpp], outside the sources), called with unit strides on
    the start of [x] and [y]: [y_i := y_i + alpha * x_i] for the first [N]
    elements.  It returns at once when [N <= 0] or [alpha == 0]. *)
Definition daxpy (N : Z) (alpha : T) (x y : list T) : option (list T) :=
  if N <=? 0 then Some y
  else if seqb alpha s0 then Some y
  else if (N <=? size x) && (N <=? size y)
  then Some (zip_with (fun yi xi => sadd yi (smul alpha xi))
               (take (Z.to_nat N) y) (take (Z.to_nat N) x)
             ++ drop (Z.to_nat N) y)
  else None.

(** One column [j] of the lower-band product: the diagonal term, then the
    [K] terms below it. *)
Definition dsbmv_column (N K LDA : nat) (alpha : T) (A x : list T) (j : nat)
  (y : list T) : option (list T) :=
  xj ← x !! j;
  ajj ← A !! (j * LDA)%nat;
  yj ← y !! j;
  let temp1 := smul alpha xj in
  let y := <[j := sadd yj (smul temp1 ajj)]> y in
  '(y, temp2) ← do_loop
      (fun i '(y, temp2) =>
         aij ← A !! ((i - j) + j * LDA)%nat;
         xi ← x !! i;
         yi ← y !! i;
         Some (<[i := sadd yi (smul temp1 aij)]> y, sadd temp2 (smul aij xi)))
      (S j) (Nat.min N (S j + K) - S j) (y, s0);
  yj ← y !! j;
  Some (<[j := sadd yj (smul alpha temp2)]> y).

(** Modelled from the spec: the BLAS kernel [dsbmv_] (symmetric-band
    multiply, declared in [blas.hpp], outside the sources), for the lower
    storage ["L"] and unit strides: [y := alpha*A*x + beta*y], where [A] is the
    [N x N] symmetric band matrix with [K] sub-diagonals stored by columns of
    height [LDA].  It first forms [beta*y] (zeroing [y] without reading it
    when [beta == 0]), returns when [alpha == 0], and then accumulates column
    by column. *)
Definition dsbmv (N K : Z) (alpha : T) (A : list T) (LDA : Z) (x : list T)
  (beta : T) (y : list T) : option (list T) :=
  if (N <? 0) || (K <? 0) || (LDA <? K + 1) then None
  else if (N =? 0) || (seqb alpha s0 && seqb beta s1) then Some y
  else if negb (N <=? size y) then None
  else
    let n := Z.to_nat N in
    let y :=
      if seqb beta s1 then y
      else if seqb beta s0 then replicate n s0 ++ drop n y
      else (smul beta <$> take n y) ++ drop n y in
    if seqb alpha s0 then Some y
    else do_loop (dsbmv_column n (Z.to_nat K) (Z.to_nat LDA) alpha A x) 0 n y.

(** ** Vector arithmetic *)

(** [VectorDiff(dvec& output, const dvec& a, const dvec& b)] *)
Definition VectorDiff (output a b : list T) : option (list T) :=
  let mOne := sopp s1 in
  let N := to_int (size output) in
  let output := a in
  daxpy N mOne b output.

(** [VectorHadamard(dvec& c, const double scale, const dvec& a, const dvec& b)] *)
Definition VectorHadamard (c : list T) (scale : T) (a b : list T)
  : option (list T) :=
  let one := 1 in
  let N := to_int (size c) in
  let K := 0 in
  let BETA := s0 in
  dsbmv N K scale a one b BETA c.

(** [static const int block = 64;] *)
Definition block : nat := 64.

(** The inner loop of [VectorHadamardIncrement]:
    [for(auto it_a_block = it_a; it_a_block < a.end(); ++it_a_block, ++it_b_block)
       *it_a_block *= scale * *it_b_block;]
    Iterators are positions in [a] and [b]; [fuel] bounds the number of
    iterations. *)
Fixpoint VectorHadamardIncrement_inner (fuel : nat) (scale : T) (b : list T)
  (it_a_block it_b_block : nat) (a : list T) : option (list T) :=
  match fuel with
  | O => None
  | S fuel' =>
      if (it_a_block <? length a)%nat then
        x ← a !! it_a_block;
        y ← b !! it_b_block;
        VectorHadamardIncrement_inner fuel' scale b
          (S it_a_block) (S it_b_block)
          (<[it_a_block := smul x (smul scale y)]> a)
      else Some a
  end.

(** The outer loop:
    [for(auto it_a = a.begin(); it_a < a.end(); it_a+=block, it_b+=block)] *)
Fixpoint VectorHadamardIncrement_outer (fuel : nat) (scale : T) (b : list T)
  (it_a it_b : nat) (a : list T) : option (list T) :=
  match fuel with
  | O => None
  | S fuel' =>
      if (it_a <? length a)%nat then
        let it_b_block := it_b in
        a' ← VectorHadamardIncrement_inner (S (length a)) scale b
               it_a it_b_block a;
        VectorHadamardIncrement_outer fuel' scale b
          (it_a + block)%nat (it_b + block)%nat a'
      else Some a
  end.

(** [VectorHadamardIncrement(dvec& a, const double scale, const dvec& b)] *)
Definition VectorHadamardIncrement (a : list T) (scale : T) (b : list T)
  : option (list T) :=
  VectorHadamardIncrement_outer (S (length a)) scale b 0 0 a.

(** The reference of the spec for the blocked loop ("any implementation may
    iterate in whatever order/granularity it prefers as long as final values
    match"): a single straightforward pass that applies the update of the
    loop body, [a_i *= scale*b_i], once to each element. *)
Definition single_pass (a : list T) (scale : T) (b : list T) : list T :=
  zip_with (fun x y => smul x (smul scale y)) a b.

End Kernels.

(** ** Random vectors *)

(** Modelled from the spec: the random-number service is outside the sources;
    "a deterministic linear-congruential-family generator seeded with [seed]".
    [std::minstd_rand] is the generator [x := 48271 * x mod (2^31 - 1)]; its
    state is the last value, [seed(s)] sets it to [s mod (2^31 - 1)], or to 1
    when that is 0. *)
Definition minstd_rand_modulus : Z := 2147483647.
Definition minstd_rand_multiplier : Z := 48271.

Definition minstd_rand_seed (seed : Z) : Z :=
  let x := to_uint seed mod minstd_rand_modulus in
  if x =? 0 then 1 else x.

(** [generator()]: the next value and the new state. *)
Definition minstd_rand_call (state : Z) : Z * Z :=
  let x := (minstd_rand_multiplier * state) mod minstd_rand_modulus in
  (x, x).

Section Random.
Context {T : Type} `{Scalar T}.

(** [std::uniform_real_distribution<double>(a, b)] applied to a generator:
    how the draws of the generator become a scalar is left to the standard
    library, so it is a parameter here.  It receives the generator's call
    operator and state and returns the scalar and the state it leaves. *)
Variable uniform_real_distribution : T -> T -> (Z -> Z * Z) -> Z -> T * Z.

(** [for(auto& it: vec) it = distribution(generator);] *)
Fixpoint SetToRandomVector_loop (vec : list T) (lo hi : T) (generator : Z)
  : list T * Z :=
  match vec with
  | [] => ([], generator)
  | _ :: vec' =>
      let '(it, generator) :=
        uniform_real_distribution lo hi minstd_rand_call generator in
      let '(rest, generator) := SetToRandomVector_loop vec' lo hi generator in
      (it :: rest, generator)
  end.

(** [SetToRandomVector(std::vector<double>& vec, const double scale,
                       const unsigned int seed)] *)
Definition SetToRandomVector (vec : list T) (scale : T) (seed : Z) : list T :=
  let generator := minstd_rand_seed seed in
  fst (SetToRandomVector_loop vec (sopp scale) scale generator).

End Random.

(** A distribution in the style of libstdc++: two draws make one canonical
    value in [0, 1), which is scaled to [lo, hi). *)
Definition two_draw_distribution (lo hi : float) (call : Z -> Z * Z) (g : Z)
  : float * Z :=
  let '(x1, g) := call g in
  let '(x2, g) := call g in
  let R := PrimFloat.of_uint63 (Uint63.of_Z (minstd_rand_modulus - 1)) in
  let f1 := PrimFloat.of_uint63 (Uint63.of_Z (x1 - 1)) in
  let f2 := PrimFloat.of_uint63 (Uint63.of_Z (x2 - 1)) in
  let canonical := ((f1 + f2 * R) / (R * R))%float in
  ((canonical * (hi - lo) + lo)%float, g).

(** ** The dense matrix container *)

(** Result of a checked access: [std::vector::at] throws
    [std::out_of_range]. *)
Inductive checked (A : Type) : Type :=
  | Ok (a : A)
  | OutOfRange.
Arguments Ok {A} a.
Arguments OutOfRange {A}.

(** [struct matrix] *)
Record matrix (T : Type) : Type := Build_matrix {
  m_dLeading : Z;      (* unsigned int *)
  m_dSecond : Z;       (* unsigned int *)
  m_data : list T
}.
Arguments Build_matrix {T} _ _ _.
Arguments m_dLeading {T} _.
Arguments m_dSecond {T} _.
Arguments m_data {T} _.

Section Matrix.
Context {T : Type} `{Scalar T}.

(** [matrix()] *)
Definition matrix_default : matrix T :=
  {| m_dLeading := 0; m_dSecond := 0; m_data := [] |}.

(** [void resize(const unsigned int dLeading, const unsigned int dSecond)];
    [std::vector::resize] keeps the leading elements and appends
    value-initialised ones. *)
Definition matrix_resize (m : matrix T) (dLeading dSecond : Z) : matrix T :=
  let m_dLeading' := dLeading in
  let m_dSecond' := dSecond in
  {| m_dLeading := m_dLeading';
     m_dSecond := m_dSecond';
     m_data := resize (Z.to_nat (to_uint (m_dLeading' * m_dSecond'))) s0 (m_data m) |}.

(** [matrix(const unsigned int dLeading, const unsigned int dSecond)]: the
    buffer is default-constructed (empty) and the dimensions are set by
    [resize]. *)
Definition matrix_new (dLeading dSecond : Z) : matrix T :=
  matrix_resize matrix_default dLeading dSecond.

(** [m_data.at(n)], as the position of the element referred to. *)
Definition vector_at {A} (v : list A) (n : Z) : checked nat :=
  if n <? size v then Ok (Z.to_nat n) else OutOfRange.

(** [T& operator() (const unsigned int row, const unsigned int col)]: the
    reference returned is a position in [m_data]. *)
Definition matrix_ref (m : matrix T) (row col : Z) : checked nat :=
  vector_at (m_data m) (to_uint (row * m_dSecond m + col)).

(** [T operator() (const unsigned int row, const unsigned int col) const] *)
Definition matrix_get (m : matrix T) (row col : Z) : checked T :=
  match vector_at (m_data m) (to_uint (row * m_dSecond m + col)) with
  | Ok p => match m_data m !! p with Some x => Ok x | None => OutOfRange end
  | OutOfRange => OutOfRange
  end.

(** An assignment [m(row, col) = value] through the mutable accessor. *)
Definition matrix_set (m : matrix T) (row col : Z) (value : T)
  : checked (matrix T) :=
  match matrix_ref m row col with
  | Ok p => Ok {| m_dLeading := m_dLeading m;
                  m_dSecond := m_dSecond m;
                  m_data := <[p := value]> (m_data m) |}
  | OutOfRange => OutOfRange
  end.

(** The container invariant of the data model: the buffer holds
    [leadingDim * secondDim] elements. *)
Definition matrix_wf (m : matrix T) : Prop :=
  0 <= m_dLeading m /\ 0 <= m_dSecond m /\
  size (m_data m) = m_dLeading m * m_dSecond m.

End Matrix.

(** The 2 x 3 matrix with the buffer [1 2 3 4 5 6]. *)
Definition matrix_2x3 : matrix float :=
  {| m_dLeading := 2; m_dSecond := 3; m_data := [1; 2; 3; 4; 5; 6]%float |}.

(** ** Synchronisation across ranks *)

(** The ranks run the same code in step; the state of a collective call is
    the list of the ranks' local values, the rank [m_id] at position
    [m_id]. *)

(** Modelled from the spec: [MpiWrapper::Sync] ([wrappers/mpi_wrapper.hpp] is
    not among the sources).  "[Sync(buffer, count, sourceRank)]": "one
    designated rank's data is broadcast so every participating rank ends the
    call with identical ... contents".  Here for one scalar ([count = 1]). *)
Definition Sync_scalar {A} (syncNode : Z) (values : list A) : option (list A) :=
  if syncNode <? 0 then None
  else src ← values !! Z.to_nat syncNode;
       Some (replicate (length values) src).

(** What [Sync(buffer, count, syncNode)] leaves in the buffer of one rank:
    the first [count] elements of the source rank's buffer. *)
Definition Sync_rank {A} (src : list A) (rank : list A * Z) : option (list A) :=
  let '(buffer, count) := rank in
  if count <=? 0 then Some buffer
  else if (count <=? size buffer) && (count <=? size src)
  then Some (take (Z.to_nat count) src ++ drop (Z.to_nat count) buffer)
  else None.

(** Modelled from the spec: [MpiWrapper::Sync] on a buffer, each rank passing
    its buffer and its count. *)
Definition Sync {A} (syncNode : Z) (ranks : list (list A * Z))
  : option (list (list A)) :=
  if syncNode <? 0 then None
  else '(src, _) ← ranks !! Z.to_nat syncNode;
       mapM (Sync_rank src) ranks.

Section MpiSync.
Context {T : Type} `{Scalar T}.

(** The rank-local step of [MpiSyncVector] between its two collective calls:
    [if(syncNode != mpi.m_id) vector.resize(dim);] *)
Definition MpiSyncVector_resize (syncNode : Z) (m_id : nat)
  (rank : list T * Z) : list T * Z :=
  let '(vector, dim) := rank in
  if syncNode =? Z.of_nat m_id then (vector, dim)
  else (resize (Z.to_nat dim) s0 vector, dim).

(** [MpiSyncVector(dvec& vector, int syncNode, utilities::MpiWrapper& mpi)],
    run by every rank. *)
Definition MpiSyncVector (vectors : list (list T)) (syncNode : Z)
  : option (list (list T)) :=
  let dims := (fun vector => to_uint (size vector)) <$> vectors in
  dims ← Sync_scalar syncNode dims;
  let ranks := imap (MpiSyncVector_resize syncNode) (zip vectors dims) in
  Sync syncNode ranks.

(** [matrix::MpiSync(int syncNode, utilities::MpiWrapper& mpi)], run by every
    rank. *)
Definition matrix_MpiSync (matrices : list (matrix T)) (syncNode : Z)
  : option (list (matrix T)) :=
  dLeading ← Sync_scalar syncNode (m_dLeading <$> matrices);
  dSecond ← Sync_scalar syncNode (m_dSecond <$> matrices);
  data ← MpiSyncVector (m_data <$> matrices) syncNode;
  Some (zip_with (fun '(l, s) d => Build_matrix l s d) (zip dLeading dSecond) data).

End MpiSync.

(** ** Vocabulary of the sub-vector proofs *)

Section Segments.
Context {T : Type}.

(** [zeros] increases strictly and starts at [nzStart] or later. *)
Fixpoint increasing_from (nzStart : Z) (zeros : list Z) : Prop :=
  match zeros with
  | [] => True
  | z :: zeros' => nzStart <= z /\ increasing_from (z + 1) zeros'
  end.

(** Run by run, [sub] holds what [input] holds: the run of [sub] that starts
    at [nzStart] is the part of [input] that starts at [nnzCumulative], and
    likewise after each entry of [zeros]. *)
Fixpoint segments_agree (sub input : list T) (zeros : list Z)
  (nnzCumulative nzStart : Z) : Prop :=
  match zeros with
  | [] =>
      forall k : nat, nzStart <= Z.of_nat k < size sub ->
        sub !! k = input !! Z.to_nat (nnzCumulative + (Z.of_nat k - nzStart))
  | z :: zeros' =>
      (forall k : nat, nzStart <= Z.of_nat k < z ->
         sub !! k = input !! Z.to_nat (nnzCumulative + (Z.of_nat k - nzStart)))
      /\ segments_agree sub input zeros' (nnzCumulative + (z - nzStart)) (z + 1)
  end.

(** [ToSubVector] from any loop state: the loop, then the last copy. *)
Definition ToSubVector_from (zeros : list Z) (sub input : list T) (cum st : Z)
  : option (list T) :=
  '(sub', nnzCumulative, nzStart) ← ToSubVector_loop zeros sub input cum st;
  CopyVector sub' nzStart input nnzCumulative (to_int (size sub' - nzStart)).

(** [FromSubVector] from any loop state. *)
Definition FromSubVector_from (zeros : list Z) (sub output : list T) (cum st : Z)
  : option (list T) :=
  '(output', nnzCumulative, nzStart) ← FromSubVector_loop zeros sub output cum st;
  CopyVector output' nnzCumulative sub nzStart (to_int (size sub - nzStart)).

End Segments.

(** ** Vocabulary of the Hadamard proofs *)

(** How many passes of the inner loop of [VectorHadamardIncrement] reach
    position [k], when the outer loop starts at [it_a]: one for each start
    [it_a], [it_a + block], ... that is not after [k]. *)
Definition passes_over (it_a k : nat) : nat :=
  if (k <? it_a)%nat then 0%nat else ((k - it_a) / block + 1)%nat.

(** ** Further kernels and the vector functions built on them *)

(** Order, absolute value and the conversion from [int], for the functions
    that compare scalars. *)
Class ScalarOrder (T : Type) `{Scalar T} := {
  sabs : T -> T;               (* fabs *)
  sltb : T -> T -> bool;       (* the comparison [<] *)
  sof_int : Z -> T             (* conversion of an [int] *)
}.

#[export] Instance double_order : ScalarOrder float := {|
  sabs := PrimFloat.abs;
  sltb := PrimFloat.ltb;
  sof_int := fun z =>
    if z <? 0 then PrimFloat.opp (PrimFloat.of_uint63 (Uint63.of_Z (- z)))
    else PrimFloat.of_uint63 (Uint63.of_Z z)
|}.

#[export] Instance exact_order : ScalarOrder Z := {|
  sabs := Z.abs;
  sltb := Z.ltb;
  sof_int := fun z => z
|}.

Section MoreKernels.
Context {T : Type} `{ScalarOrder T}.

(** Modelled from the spec: the BLAS kernel [ddot_] (dot product, declared in
    [blas.hpp], outside the sources), called with unit strides on the start
    of [x] and [y]: the products of the first [N] pairs are added to an
    accumulator that starts at 0, in the order of the indices (the unrolled
    loop of the reference kernel adds them in that order); 0 when
    [N <= 0]. *)
Definition ddot (N : Z) (x y : list T) : option T :=
  if N <=? 0 then Some s0
  else do_loop
         (fun i dtemp =>
            xi ← x !! i;
            yi ← y !! i;
            Some (sadd dtemp (smul xi yi)))
         0 (Z.to_nat N) s0.

(** Modelled from the spec: the BLAS kernel [dasum_] (absolute sum, declared
    in [blas.hpp], outside the sources), called with unit stride on the start
    of [x]: the absolute values of the first [N] elements are added to an
    accumulator that starts at 0, in the order of the indices; 0 when
    [N <= 0]. *)
Definition dasum (N : Z) (x : list T) : option T :=
  if N <=? 0 then Some s0
  else do_loop
         (fun i dtemp =>
            xi ← x !! i;
            Some (sadd dtemp (sabs xi)))
         0 (Z.to_nat N) s0.


(** [double VectorDot(const dvec& a, const dvec& b)] *)
Definition VectorDot (a b : list T) : option T :=
  let N := to_int (size a) in
  ddot N a b.

(** The loop of [VectorSgn]:
    [for(auto it_vec = vec.begin(); it_vec < vec.end(); ++it_vec, ++it_sgn)
       *it_sgn = ( *it_vec > 0) - ( *it_vec < 0);]
    [it_sgn] is a position in [sgnVec]; the two comparisons are [int]s, and
    their difference is converted to a scalar. *)
Fixpoint VectorSgn_loop (vec : list T) (it_sgn : nat) (sgnVec : list T)
  : option (list T) :=
  match vec with
  | [] => Some sgnVec
  | it_vec :: vec' =>
      if (it_sgn <? length sgnVec)%nat then
        let sgn := Z.b2z (sltb s0 it_vec) - Z.b2z (sltb it_vec s0) in
        VectorSgn_loop vec' (S it_sgn) (<[it_sgn := sof_int sgn]> sgnVec)
      else None
  end.

(** [VectorSgn(dvec& sgnVec, const dvec& vec)] *)
Definition VectorSgn (sgnVec vec : list T) : option (list T) :=
  VectorSgn_loop vec 0 sgnVec.

(** [double VectorL2(const dvec& a)] *)
Definition VectorL2 (a : list T) : option T :=
  let N := to_int (size a) in
  ddot N a a.

(** [double VectorL1(const dvec& a)] *)
Definition VectorL1 (a : list T) : option T :=
  let N := to_int (size a) in
  dasum N a.

(** [double VectorSum(const dvec& a)] *)
Definition VectorSum (a : list T) : option T :=
  let temp := replicate (length a) s1 in
  VectorDot a temp.

(** [VectorScale(dvec& output, const double scale, const dvec& input)] *)
Definition VectorScale (output : list T) (scale : T) (input : list T)
  : option (list T) :=
  let output := replicate (length output) s0 in
  let N := to_int (size input) in
  daxpy N scale input output.

(** [void SetRow(const unsigned int row, const std::vector<T>& rowBuffer)]:
    the copy starts at [&m_data[row*m_dSecond]], an unchecked access. *)
Definition matrix_SetRow (m : matrix T) (row : Z) (rowBuffer : list T)
  : option (matrix T) :=
  data ← CopyVector (m_data m) (to_uint (row * m_dSecond m)) rowBuffer 0
           (to_int (size rowBuffer));
  Some {| m_dLeading := m_dLeading m;
          m_dSecond := m_dSecond m;
          m_data := data |}.

End MoreKernels.

(** ** Vocabulary of the further proofs *)

(** The number of entries of [zeros] below [k]. *)
Fixpoint zeros_below (zeros : list Z) (k : Z) : Z :=
  match zeros with
  | [] => 0
  | z :: zeros' => (if z <? k then 1 else 0) + zeros_below zeros' k
  end.

(** The sign of a [double] as [VectorSgn] writes it. *)
Definition double_sgn (x : float) : float :=
  if PrimFloat.ltb 0 x then 1%float
  else if PrimFloat.ltb x 0 then (-1)%float
  else 0%float.

(** * Properties *)

(** ** Machine integers *)

Lemma to_int_small (z : Z) : - 2 ^ 31 <= z < 2 ^ 31 -> to_int z = z.
Proof.
  intros Hz. unfold to_int.
  rewrite Z.mod_small by lia. lia.
Qed.

Lemma to_uint_small (z : Z) : 0 <= z < 2 ^ 32 -> to_uint z = z.
Proof. intros Hz. unfold to_uint. apply Z.mod_small. lia. Qed.

Lemma to_int_to_uint_small (z : Z) :
  0 <= z < 2 ^ 31 -> to_int (to_uint z) = z.
Proof.
  intros Hz. rewrite to_uint_small by lia. apply to_int_small. lia.
Qed.

(** ** The copy *)

Section CopyFacts.
Context {T : Type}.
Implicit Types out inp sub input output : list T.

Lemma copied_length out o inp i N :
  0 <= o -> 0 <= i -> 0 <= N -> o + N <= size out -> i + N <= size inp ->
  length (copied out o inp i N) = length out.
Proof.
  unfold copied, size. intros.
  rewrite !length_app, !length_take, !length_drop. lia.
Qed.

Lemma copied_lookup_in out o inp i N (k : nat) :
  0 <= o -> 0 <= i -> 0 <= N -> o + N <= size out -> i + N <= size inp ->
  o <= Z.of_nat k < o + N ->
  copied out o inp i N !! k = inp !! Z.to_nat (i + (Z.of_nat k - o)).
Proof.
  unfold copied, size. intros.
  rewrite lookup_app_r by (rewrite length_take; lia).
  rewrite length_take.
  rewrite lookup_app_l by (rewrite length_take, length_drop; lia).
  rewrite lookup_take_lt by lia.
  rewrite lookup_drop. f_equal. lia.
Qed.

Lemma copied_lookup_out out o inp i N (k : nat) :
  0 <= o -> 0 <= i -> 0 <= N -> o + N <= size out -> i + N <= size inp ->
  ~ (o <= Z.of_nat k < o + N) ->
  copied out o inp i N !! k = out !! k.
Proof.
  unfold copied, size. intros ? ? ? ? ? Hk.
  destruct (Z_lt_dec (Z.of_nat k) o) as [Hlt | Hge].
  - rewrite lookup_app_l by (rewrite length_take; lia).
    apply lookup_take_lt. lia.
  - rewrite lookup_app_r by (rewrite length_take; lia).
    rewrite lookup_app_r
      by (rewrite !length_take, length_drop; lia).
    rewrite lookup_drop, !length_take, length_drop. f_equal. lia.
Qed.

Lemma CopyVector_nothing out o inp i N :
  N <= 0 -> CopyVector out o inp i N = Some out.
Proof.
  intros HN. unfold CopyVector.
  destruct (Z.leb_spec N 0); [reflexivity | lia].
Qed.

Lemma CopyVector_in_range out o inp i N :
  0 < N -> 0 <= o -> 0 <= i -> o + N <= size out -> i + N <= size inp ->
  CopyVector out o inp i N = Some (copied out o inp i N).
Proof.
  intros. unfold CopyVector.
  destruct (Z.leb_spec N 0); [lia |].
  destruct (Z.leb_spec 0 o); [| lia].
  destruct (Z.leb_spec (o + N) (size out)); [| lia].
  destruct (Z.leb_spec 0 i); [| lia].
  destruct (Z.leb_spec (i + N) (size inp)); [| lia].
  reflexivity.
Qed.

(** What a copy within range does, element by element. *)
Lemma CopyVector_spec out o inp i N :
  0 <= N -> 0 <= o -> 0 <= i -> o + N <= size out -> i + N <= size inp ->
  exists out',
    CopyVector out o inp i N = Some out' /\
    length out' = length out /\
    (forall k : nat, o <= Z.of_nat k < o + N ->
       out' !! k = inp !! Z.to_nat (i + (Z.of_nat k - o))) /\
    (forall k : nat, ~ (o <= Z.of_nat k < o + N) -> out' !! k = out !! k).
Proof.
  intros HN Ho Hi Hout Hinp.
  destruct (Z.eq_dec N 0) as [-> | HN0].
  - exists out. rewrite CopyVector_nothing by lia.
    split; [reflexivity |]. split; [reflexivity |].
    split; [intros; lia | reflexivity].
  - exists (copied out o inp i N).
    rewrite CopyVector_in_range by lia.
    split; [reflexivity |]. split; [apply copied_length; lia |].
    split; intros.
    + apply copied_lookup_in; lia.
    + apply copied_lookup_out; lia.
Qed.

End CopyFacts.

(** ** Sub-vector packing *)

Section SubVectorFacts.
Context {T : Type}.
Implicit Types sub input output : list T.

Lemma Sorted_increasing_from (zeros : list Z) (nzStart : Z) :
  Sorted Z.lt zeros ->
  Forall (fun z => nzStart <= z) zeros ->
  increasing_from nzStart zeros.
Proof.
  intros Hs. revert nzStart.
  induction Hs as [| z zeros Hs IH Hhd]; intros nzStart Hall; simpl.
  - exact I.
  - inversion Hall as [| ? ? Hz Hrest]; subst.
    split; [exact Hz |].
    apply IH. destruct Hhd as [| z' zeros' Hlt]; constructor.
    + lia.
    + apply Sorted_extends in Hs; [| intros ? ? ?; lia].
      apply Forall_forall. intros y Hy.
      rewrite Forall_forall in Hs. specialize (Hs y Hy). lia.
Qed.

Lemma increasing_from_count (zeros : list Z) (nzStart n : Z) :
  increasing_from nzStart zeros ->
  Forall (fun z => z < n) zeros ->
  nzStart <= n ->
  nzStart + size zeros <= n.
Proof.
  revert nzStart.
  induction zeros as [| z zeros IH]; intros nzStart Hinc Hlt Hn.
  - unfold size. simpl. lia.
  - destruct Hinc as [Hz Hinc].
    inversion Hlt as [| ? ? Hzn Hlt']; subst.
    specialize (IH (z + 1) Hinc Hlt').
    unfold size in *. simpl length. lia.
Qed.

Lemma ToSubVector_from_spec input (zeros : list Z) :
  size input < 2 ^ 31 ->
  forall sub (cum st : Z),
    size sub < 2 ^ 31 ->
    0 <= cum -> 0 <= st <= size sub ->
    increasing_from st zeros ->
    Forall (fun z => z < size sub) zeros ->
    cum + (size sub - st - size zeros) <= size input ->
    exists sub',
      ToSubVector_from zeros sub input cum st = Some sub' /\
      length sub' = length sub /\
      (forall k : nat, Z.of_nat k < st -> sub' !! k = sub !! k) /\
      segments_agree sub' input zeros cum st.
Proof.
  intros Hinput.
  induction zeros as [| z zeros IH]; intros sub cum st Hsub Hcum Hst Hinc Hlt Hfit.
  - unfold ToSubVector_from. simpl.
    change (size (@nil Z)) with 0 in Hfit.
    rewrite to_int_small by lia.
    destruct (CopyVector_spec sub st input cum (size sub - st))
      as (sub' & Hcopy & Hlen & Hin & Hout); try lia.
    exists sub'. split; [exact Hcopy |]. split; [exact Hlen |].
    split.
    + intros k Hk. apply Hout. lia.
    + intros k Hk. apply Hin. unfold size in *. lia.
  - destruct Hinc as [Hz Hinc].
    inversion Hlt as [| ? ? Hzsub Hlt']; subst.
    assert (Hsz : size (z :: zeros) = size zeros + 1)
      by (unfold size; simpl; lia).
    rewrite Hsz in Hfit.
    assert (Hzeros : 0 <= size zeros) by (unfold size; lia).
    pose proof (increasing_from_count zeros (z + 1) (size sub) Hinc Hlt') as Hcount.
    unfold ToSubVector_from. simpl.
    rewrite to_int_to_uint_small by lia.
    rewrite (to_int_to_uint_small (z + 1)) by lia.
    rewrite (to_int_small (cum + (z - st))) by lia.
    destruct (CopyVector_spec sub st input cum (z - st))
      as (sub1 & Hcopy & Hlen1 & Hin1 & Hout1); try lia.
    assert (Hstep :
      (if z - st =? 0 then Some sub
       else CopyVector sub st input cum (z - st)) = Some sub1).
    { destruct (Z.eqb_spec (z - st) 0) as [E | E]; [| exact Hcopy].
      rewrite E in Hcopy. rewrite CopyVector_nothing in Hcopy by lia.
      exact Hcopy. }
    rewrite Hstep. simpl.
    assert (Hsize1 : size sub1 = size sub) by (unfold size; lia).
    destruct (IH sub1 (cum + (z - st)) (z + 1))
      as (sub' & Hrun & Hlen & Hbelow & Hagree); try lia.
    { exact Hinc. }
    { rewrite Hsize1. exact Hlt'. }
    exists sub'. split; [exact Hrun |].
    split; [lia |]. split.
    + intros k Hk. rewrite Hbelow by lia. apply Hout1. lia.
    + split; [| exact Hagree].
      intros k Hk. rewrite Hbelow by lia. apply Hin1. lia.
Qed.

Lemma FromSubVector_from_spec input sub (zeros : list Z) :
  size input < 2 ^ 31 -> size sub < 2 ^ 31 ->
  forall output (cum st : Z),
    0 <= cum -> 0 <= st <= size sub ->
    increasing_from st zeros ->
    Forall (fun z => z < size sub) zeros ->
    cum + (size sub - st - size zeros) <= size input ->
    length output = length input ->
    segments_agree sub input zeros cum st ->
    exists output',
      FromSubVector_from zeros sub output cum st = Some output' /\
      length output' = length output /\
      (forall k : nat,
         cum <= Z.of_nat k < cum + (size sub - st - size zeros) ->
         output' !! k = input !! k) /\
      (forall k : nat,
         ~ (cum <= Z.of_nat k < cum + (size sub - st - size zeros)) ->
         output' !! k = output !! k).
Proof.
  intros Hinput Hsub.
  induction zeros as [| z zeros IH];
    intros output cum st Hcum Hst Hinc Hlt Hfit Hlen Hagree.
  - unfold FromSubVector_from. simpl.
    change (size (@nil Z)) with 0 in *.
    rewrite to_int_small by lia.
    assert (Hso : size output = size input) by (unfold size; lia).
    destruct (CopyVector_spec output cum sub st (size sub - st))
      as (output' & Hcopy & Hlen' & Hin & Hout); try lia.
    exists output'. split; [exact Hcopy |]. split; [exact Hlen' |].
    split.
    + intros k Hk. rewrite Hin by lia.
      simpl in Hagree.
      replace (Z.to_nat (st + (Z.of_nat k - cum)))
        with (Z.to_nat (Z.of_nat (Z.to_nat (st + (Z.of_nat k - cum))))) by lia.
      rewrite Hagree by lia. f_equal. lia.
    + intros k Hk. apply Hout. lia.
  - destruct Hinc as [Hz Hinc].
    inversion Hlt as [| ? ? Hzsub Hlt']; subst.
    destruct Hagree as [Hhead Hagree].
    assert (Hsz : size (z :: zeros) = size zeros + 1)
      by (unfold size; simpl; lia).
    rewrite Hsz in *.
    assert (Hzeros : 0 <= size zeros) by (unfold size; lia).
    assert (Hso : size output = size input) by (unfold size; lia).
    pose proof (increasing_from_count zeros (z + 1) (size sub) Hinc Hlt') as Hcount.
    unfold FromSubVector_from. simpl.
    rewrite to_int_to_uint_small by lia.
    rewrite (to_int_to_uint_small (z + 1)) by lia.
    rewrite (to_int_small (cum + (z - st))) by lia.
    destruct (CopyVector_spec output cum sub st (z - st))
      as (output1 & Hcopy & Hlen1 & Hin1 & Hout1); try lia.
    assert (Hstep :
      (if z - st =? 0 then Some output
       else CopyVector output cum sub st (z - st)) = Some output1).
    { destruct (Z.eqb_spec (z - st) 0) as [E | E]; [| exact Hcopy].
      rewrite E in Hcopy. rewrite CopyVector_nothing in Hcopy by lia.
      exact Hcopy. }
    rewrite Hstep. simpl.
    destruct (IH output1 (cum + (z - st)) (z + 1))
      as (output' & Hrun & Hlen' & Hnew & Hold); try lia.
    { exact Hinc. }
    { exact Hlt'. }
    { exact Hagree. }
    exists output'. split; [exact Hrun |].
    split; [lia |]. split.
    + intros k Hk.
      destruct (Z_lt_dec (Z.of_nat k) (cum + (z - st))) as [Hk1 | Hk2].
      * rewrite Hold by lia. rewrite Hin1 by lia.
        replace (Z.to_nat (st + (Z.of_nat k - cum)))
          with (Z.to_nat (Z.of_nat (Z.to_nat (st + (Z.of_nat k - cum))))) by lia.
        rewrite Hhead by lia. f_equal. lia.
      * apply Hnew. lia.
    + intros k Hk. rewrite Hold by lia. apply Hout1. lia.
Qed.

End SubVectorFacts.

Section SubVectorClaims.
Context {T : Type}.
Implicit Types sub input output : list T.

Lemma ToSubVector_nil sub input (offset : Z) :
  0 <= offset < 2 ^ 31 ->
  ToSubVector sub input offset [] = ToSubVector_nozeros sub input offset.
Proof.
  intros Hoff. unfold ToSubVector, ToSubVector_nozeros. simpl.
  rewrite (to_int_small offset) by lia.
  rewrite Z.sub_0_r. reflexivity.
Qed.

Lemma FromSubVector_nil sub output (offset : Z) :
  0 <= offset < 2 ^ 31 ->
  FromSubVector sub output offset [] = FromSubVector_nozeros sub output offset.
Proof.
  intros Hoff. unfold FromSubVector, FromSubVector_nozeros. simpl.
  rewrite (to_int_small offset) by lia.
  rewrite Z.sub_0_r. reflexivity.
Qed.

Lemma ToSubVector_nozeros_copy sub input (offset : Z) :
  0 <= offset -> size sub < 2 ^ 31 -> offset + size sub <= size input ->
  ToSubVector_nozeros sub input offset
  = Some (take (length sub) (drop (Z.to_nat offset) input)).
Proof.
  intros Hoff Hsub Hfit. unfold ToSubVector_nozeros.
  assert (0 <= size sub) by (unfold size; lia).
  rewrite to_int_small by lia.
  destruct sub as [| x sub].
  - reflexivity.
  - rewrite CopyVector_in_range by (unfold size in *; simpl in *; lia).
    unfold copied. f_equal.
    change (Z.to_nat 0) with 0%nat. rewrite take_0. simpl app.
    unfold size. rewrite Z.add_0_l, Nat2Z.id.
    rewrite drop_all. apply app_nil_r.
Qed.

Lemma FromSubVector_nozeros_copy sub output (offset : Z) :
  0 <= offset -> size sub < 2 ^ 31 -> offset + size sub <= size output ->
  FromSubVector_nozeros sub output offset
  = Some (take (Z.to_nat offset) output ++ sub
          ++ drop (Z.to_nat offset + length sub) output).
Proof.
  intros Hoff Hsub Hfit. unfold FromSubVector_nozeros.
  assert (0 <= size sub) by (unfold size; lia).
  rewrite to_int_small by lia.
  destruct sub as [| x sub].
  - simpl. rewrite Nat.add_0_r, take_drop. reflexivity.
  - rewrite CopyVector_in_range by (unfold size in *; simpl in *; lia).
    unfold copied. f_equal. f_equal.
    change (Z.to_nat 0) with 0%nat. rewrite drop_0.
    unfold size. rewrite Nat2Z.id, firstn_all.
    f_equal. f_equal. lia.
Qed.

(** C8: with an empty [zeros] sequence [ToSubVector] produces exactly the sub
    contents of its overload without [zeros], and [FromSubVector] the output
    contents of its overload without [zeros]; both are the straight copy of
    [sub.size()] contiguous elements starting at [offset] (all accesses within
    the vectors, sizes and offset within an [int]). *)
Theorem empty_zeros_is_the_nozeros_overload sub input output (offset : Z) :
  0 <= offset ->
  size input < 2 ^ 31 -> size output < 2 ^ 31 ->
  offset + size sub <= size input ->
  offset + size sub <= size output ->
  ToSubVector sub input offset [] = ToSubVector_nozeros sub input offset /\
  ToSubVector_nozeros sub input offset
    = Some (take (length sub) (drop (Z.to_nat offset) input)) /\
  FromSubVector sub output offset [] = FromSubVector_nozeros sub output offset /\
  FromSubVector_nozeros sub output offset
    = Some (take (Z.to_nat offset) output ++ sub
            ++ drop (Z.to_nat offset + length sub) output).
Proof.
  intros Hoff Hin Hout Hfit_in Hfit_out.
  assert (0 <= size sub) by (unfold size; lia).
  split; [apply ToSubVector_nil; lia |].
  split; [apply ToSubVector_nozeros_copy; lia |].
  split; [apply FromSubVector_nil; lia |].
  apply FromSubVector_nozeros_copy; lia.
Qed.

(** C1: [ToSubVector(sub, input, offset, zeros)] followed by
    [FromSubVector(sub, output, offset, zeros)], for a strictly increasing
    [zeros] within [sub] and an [output] as long as [input], leaves [output]
    equal to [input] at every position of the copied range (the
    [sub.size() - zeros.size()] positions from [offset] on, none of which is
    skipped); the other positions of [output] keep their values. *)
Theorem ToSubVector_FromSubVector_round_trip
  sub input output (offset : Z) (zeros : list Z) :
  Sorted Z.lt zeros ->
  Forall (fun z => 0 <= z < size sub) zeros ->
  0 <= offset ->
  offset + (size sub - size zeros) <= size input ->
  size input < 2 ^ 31 -> size sub < 2 ^ 31 ->
  length output = length input ->
  exists sub' output',
    ToSubVector sub input offset zeros = Some sub' /\
    FromSubVector sub' output offset zeros = Some output' /\
    length output' = length output /\
    (forall k : nat,
       offset <= Z.of_nat k < offset + (size sub - size zeros) ->
       output' !! k = input !! k) /\
    (forall k : nat,
       ~ (offset <= Z.of_nat k < offset + (size sub - size zeros)) ->
       output' !! k = output !! k).
Proof.
  intros Hsorted Hzeros Hoff Hfit Hinput Hsub Hlen.
  assert (Hinc : increasing_from 0 zeros).
  { apply Sorted_increasing_from; [exact Hsorted |].
    eapply Forall_impl; [exact Hzeros |]. simpl. intros; lia. }
  assert (Hlt : Forall (fun z => z < size sub) zeros).
  { eapply Forall_impl; [exact Hzeros |]. simpl. intros; lia. }
  assert (Hsize : 0 <= size sub) by (unfold size; lia).
  assert (Hcount : 0 <= size zeros <= size sub).
  { pose proof (increasing_from_count zeros 0 (size sub) Hinc Hlt).
    unfold size in *. lia. }
  destruct (ToSubVector_from_spec input zeros Hinput sub offset 0)
    as (sub' & Hto & Hlen' & _ & Hagree); try lia; try assumption.
  assert (Hsize' : size sub' = size sub) by (unfold size; lia).
  destruct (FromSubVector_from_spec input sub' zeros Hinput
              ltac:(lia) output offset 0)
    as (output' & Hfrom & Hlen'' & Hnew & Hold);
    try rewrite Hsize'; try lia; try assumption.
  exists sub', output'.
  rewrite Hsize' in *.
  unfold ToSubVector, FromSubVector.
  rewrite (to_int_small offset) by lia.
  split; [exact Hto |]. split; [exact Hfrom |].
  split; [exact Hlen'' |].
  split; intros k Hk; [apply Hnew | apply Hold]; lia.
Qed.

End SubVectorClaims.

Lemma empty_zeros_is_the_nozeros_overload_witness :
  ToSubVector [1; 2; 3]%float [10; 11; 12; 13; 14]%float 1 []
    = ToSubVector_nozeros [1; 2; 3]%float [10; 11; 12; 13; 14]%float 1 /\
  ToSubVector_nozeros [1; 2; 3]%float [10; 11; 12; 13; 14]%float 1
    = Some (take 3 (drop (Z.to_nat 1) [10; 11; 12; 13; 14]%float)) /\
  FromSubVector [1; 2; 3]%float [0; 0; 0; 0; 0]%float 1 []
    = FromSubVector_nozeros [1; 2; 3]%float [0; 0; 0; 0; 0]%float 1 /\
  FromSubVector_nozeros [1; 2; 3]%float [0; 0; 0; 0; 0]%float 1
    = Some (take (Z.to_nat 1) [0; 0; 0; 0; 0]%float ++ [1; 2; 3]%float
            ++ drop (Z.to_nat 1 + 3) [0; 0; 0; 0; 0]%float).
Proof.
  apply (empty_zeros_is_the_nozeros_overload
           [1; 2; 3]%float [10; 11; 12; 13; 14]%float
           [0; 0; 0; 0; 0]%float 1).
  - lia.
  - vm_compute. reflexivity.
  - vm_compute. reflexivity.
  - vm_compute. discriminate.
  - vm_compute. discriminate.
Defined.

Lemma ToSubVector_FromSubVector_round_trip_witness :
  exists sub' output',
    ToSubVector [0; 0; 0; 0; 0]%float [10; 11; 12; 13; 14; 15]%float 1 [1; 3]
      = Some sub' /\
    FromSubVector sub' [0; 0; 0; 0; 0; 0]%float 1 [1; 3] = Some output' /\
    length output' = 6%nat /\
    (forall k : nat, 1 <= Z.of_nat k < 1 + (5 - 2) ->
       output' !! k = [10; 11; 12; 13; 14; 15]%float !! k) /\
    (forall k : nat, ~ (1 <= Z.of_nat k < 1 + (5 - 2)) ->
       output' !! k = [0; 0; 0; 0; 0; 0]%float !! k).
Proof.
  apply (ToSubVector_FromSubVector_round_trip
           [0; 0; 0; 0; 0]%float [10; 11; 12; 13; 14; 15]%float
           [0; 0; 0; 0; 0; 0]%float 1 [1; 3]).
  - repeat constructor.
  - repeat constructor; vm_compute; discriminate.
  - lia.
  - vm_compute; discriminate.
  - vm_compute; reflexivity.
  - vm_compute; reflexivity.
  - reflexivity.
Defined.

(** ** The in-place Hadamard product *)

Section HadamardIncrementFacts.
Context {T : Type} `{Scalar T}.
Implicit Types a b : list T.

(** One pass of the inner loop from [it_a_block]: the positions before it are
    kept, each position from it on is multiplied once. *)
Lemma VectorHadamardIncrement_inner_spec (scale : T) b (fuel : nat) :
  forall (it_a_block it_b_block : nat) a,
    (length a - it_a_block < fuel)%nat ->
    (it_b_block + (length a - it_a_block) <= length b)%nat ->
    exists a',
      VectorHadamardIncrement_inner fuel scale b it_a_block it_b_block a
        = Some a' /\
      length a' = length a /\
      (forall k : nat, (k < it_a_block)%nat -> a' !! k = a !! k) /\
      (forall (k : nat) (x y : T),
         (it_a_block <= k)%nat ->
         a !! k = Some x ->
         b !! (it_b_block + (k - it_a_block))%nat = Some y ->
         a' !! k = Some (smul x (smul scale y))).
Proof.
  induction fuel as [| fuel IH]; intros ia ib a Hfuel Hb; [lia |].
  simpl.
  destruct (Nat.ltb_spec ia (length a)) as [Hlt | Hge].
  - destruct (lookup_lt_is_Some_2 a ia Hlt) as [x Hx].
    destruct (lookup_lt_is_Some_2 b ib ltac:(lia)) as [y Hy].
    rewrite Hx, Hy. simpl.
    destruct (IH (S ia) (S ib) (<[ia := smul x (smul scale y)]> a))
      as (a' & Hrun & Hlen & Hbelow & Hfrom);
      try (rewrite length_insert; lia).
    rewrite length_insert in Hlen.
    exists a'. split; [exact Hrun |]. split; [exact Hlen |]. split.
    + intros k Hk. rewrite Hbelow by lia.
      apply list_lookup_insert_ne. lia.
    + intros k x' y' Hk Hx' Hy'.
      destruct (Nat.eq_dec k ia) as [-> | Hne].
      * rewrite Hbelow by lia.
        rewrite list_lookup_insert_eq by lia.
        replace (ib + (ia - ia))%nat with ib in Hy' by lia.
        congruence.
      * apply Hfrom; [lia | |].
        -- rewrite list_lookup_insert_ne by lia. exact Hx'.
        -- replace (S ib + (k - S ia))%nat with (ib + (k - ia))%nat by lia.
           exact Hy'.
  - exists a. split; [reflexivity |]. split; [reflexivity |].
    split; [reflexivity |].
    intros k x y Hk Hx _. apply lookup_lt_Some in Hx. lia.
Qed.

Lemma VectorHadamardIncrement_outer_step (scale : T) b (fuel it_a it_b : nat) a :
  VectorHadamardIncrement_outer (S fuel) scale b it_a it_b a
  = if (it_a <? length a)%nat then
      a' ← VectorHadamardIncrement_inner (S (length a)) scale b it_a it_b a;
      VectorHadamardIncrement_outer fuel scale b
        (it_a + block)%nat (it_b + block)%nat a'
    else Some a.
Proof. reflexivity. Qed.

(** The outer loop from [it_a]: position [k] is multiplied once for every
    pass that reaches it. *)
Lemma VectorHadamardIncrement_outer_spec (scale : T) b (fuel : nat) :
  forall (it_a : nat) a,
    (length a - it_a < fuel)%nat ->
    (length a <= length b)%nat ->
    exists a',
      VectorHadamardIncrement_outer fuel scale b it_a it_a a = Some a' /\
      length a' = length a /\
      (forall (k : nat) (x y : T),
         a !! k = Some x -> b !! k = Some y ->
         a' !! k = Some (Nat.iter (passes_over it_a k)
                           (fun v => smul v (smul scale y)) x)).
Proof.
  induction fuel as [| fuel IH]; intros ia a Hfuel Hb; [lia |].
  rewrite VectorHadamardIncrement_outer_step.
  destruct (Nat.ltb_spec ia (length a)) as [Hlt | Hge].
  - destruct (VectorHadamardIncrement_inner_spec scale b (S (length a)) ia ia a)
      as (a1 & Hrun1 & Hlen1 & Hbelow1 & Hfrom1); try lia.
    rewrite Hrun1. simpl.
    destruct (IH (ia + block)%nat a1) as (a' & Hrun & Hlen & Hall);
      try (unfold block; lia).
    exists a'. split; [exact Hrun |]. split; [lia |].
    intros k x y Hx Hy.
    unfold passes_over, block in *.
    destruct (Nat.ltb_spec k ia) as [Hk | Hk].
    + rewrite (Hall k x y); [| rewrite Hbelow1 by lia; exact Hx | exact Hy].
      destruct (Nat.ltb_spec k (ia + 64)); [reflexivity | lia].
    + assert (Hx1 : a1 !! k = Some (smul x (smul scale y))).
      { apply Hfrom1; [lia | exact Hx |].
        replace (ia + (k - ia))%nat with k by lia. exact Hy. }
      rewrite (Hall k _ y Hx1 Hy).
      destruct (Nat.ltb_spec k (ia + 64)) as [Hk' | Hk'].
      * replace ((k - ia) / 64)%nat with 0%nat
          by (symmetry; apply Nat.div_small; lia).
        reflexivity.
      * replace ((k - ia) / 64 + 1)%nat
          with (S ((k - (ia + 64)) / 64 + 1))%nat.
        -- rewrite Nat.iter_succ_r. reflexivity.
        -- replace (k - ia)%nat with ((k - (ia + 64)) + 1 * 64)%nat by lia.
           rewrite Nat.div_add by lia. lia.
  - exists a. split; [reflexivity |]. split; [reflexivity |].
    intros k x y Hx _.
    pose proof (lookup_lt_Some _ _ _ Hx).
    unfold passes_over.
    destruct (Nat.ltb_spec k ia); [exact Hx | lia].
Qed.

(** What [VectorHadamardIncrement] leaves in [a]: position [k] is multiplied
    [k / block + 1] times by [scale * b_k]. *)
Lemma VectorHadamardIncrement_spec a (scale : T) b :
  (length a <= length b)%nat ->
  exists a',
    VectorHadamardIncrement a scale b = Some a' /\
    length a' = length a /\
    (forall (k : nat) (x y : T),
       a !! k = Some x -> b !! k = Some y ->
       a' !! k = Some (Nat.iter (k / block + 1)
                         (fun v => smul v (smul scale y)) x)).
Proof.
  intros Hb. unfold VectorHadamardIncrement.
  destruct (VectorHadamardIncrement_outer_spec scale b (S (length a)) 0 a)
    as (a' & Hrun & Hlen & Hall); try lia.
  exists a'. split; [exact Hrun |]. split; [exact Hlen |].
  intros k x y Hx Hy. rewrite (Hall k x y Hx Hy).
  unfold passes_over. simpl. rewrite Nat.sub_0_r. reflexivity.
Qed.

(** A vector of one block at most gets the single pass. *)
Lemma VectorHadamardIncrement_one_block a (scale : T) b :
  length a = length b -> (length a <= block)%nat ->
  VectorHadamardIncrement a scale b = Some (single_pass a scale b).
Proof.
  intros Hb Hblock.
  destruct (VectorHadamardIncrement_spec a scale b) as (a' & Hrun & Hlen & Hall);
    [lia |].
  rewrite Hrun. f_equal. apply list_eq. intros k.
  unfold single_pass. rewrite lookup_zip_with.
  destruct (a !! k) as [x |] eqn:Hx.
  - destruct (lookup_lt_is_Some_2 b k) as [y Hy].
    { apply lookup_lt_Some in Hx. lia. }
    rewrite (Hall k x y Hx Hy), Hy.
    apply lookup_lt_Some in Hx.
    rewrite Nat.div_small by lia.
    reflexivity.
  - simpl. apply lookup_ge_None. apply lookup_ge_None in Hx. lia.
Qed.

(** C2, as amended: [VectorHadamardIncrement(a, scale, b)] multiplies in
    place; every element [i] of the first block ([i < 64]) becomes
    [a_i * (scale * b_i)], the prior value of [a_i] being a factor of the
    result. *)
Theorem VectorHadamardIncrement_multiplies_in_place a (scale : T) b :
  length a = length b ->
  exists a',
    VectorHadamardIncrement a scale b = Some a' /\
    length a' = length a /\
    (forall (i : nat) (x y : T),
       (i < block)%nat -> a !! i = Some x -> b !! i = Some y ->
       a' !! i = Some (smul x (smul scale y))).
Proof.
  intros Hb.
  destruct (VectorHadamardIncrement_spec a scale b) as (a' & Hrun & Hlen & Hall);
    [lia |].
  exists a'. split; [exact Hrun |]. split; [exact Hlen |].
  intros i x y Hi Hx Hy. rewrite (Hall i x y Hx Hy).
  rewrite Nat.div_small by exact Hi. reflexivity.
Qed.

End HadamardIncrementFacts.

(** Two binary64 constants that [==] tells apart are different. *)
Ltac float_discriminate H :=
  match type of H with
  | ?x = ?y =>
      apply (f_equal (fun v => PrimFloat.eqb v y)) in H;
      vm_compute in H; discriminate H
  end.

(** C2, as stated, fails: the prior value of [a_i] is not discarded.  On
    [a = [2]], [scale = 1], [b = [3]] the element becomes [2 * (1 * 3) = 6],
    not [1 * 3 = 3]. *)
Lemma VectorHadamardIncrement_does_not_discard_prior_value :
  ~ (forall (a : list float) (scale : float) (b : list float),
       length a = length b ->
       forall a' : list float,
         VectorHadamardIncrement a scale b = Some a' ->
         forall (i : nat) (y : float),
           b !! i = Some y -> a' !! i = Some (smul scale y)).
Proof.
  intros Hclaim.
  specialize (Hclaim [2%float] 1%float [3%float] eq_refl [6%float]).
  specialize (Hclaim ltac:(vm_compute; reflexivity) 0%nat 3%float eq_refl).
  vm_compute in Hclaim.
  apply (inj Some) in Hclaim.
  float_discriminate Hclaim.
Qed.

Lemma VectorHadamardIncrement_multiplies_in_place_witness :
  exists a' : list float,
    VectorHadamardIncrement [2%float] 1%float [3%float] = Some a' /\
    length a' = 1%nat /\
    (forall (i : nat) (x y : float),
       (i < block)%nat -> [2%float] !! i = Some x -> [3%float] !! i = Some y ->
       a' !! i = Some (smul x (smul 1%float y))).
Proof.
  apply (VectorHadamardIncrement_multiplies_in_place
           [2%float] 1%float [3%float]).
  reflexivity.
Defined.

(** C3 does not hold of the code: the inner loop of [VectorHadamardIncrement] runs to
    [a.end()], not to the end of its block, so the second pass multiplies the
    elements from position 64 on once more.  On 65 elements
    [a_i = 2], [b_i = 3] and [scale = 1], the code leaves [a_64 = 18], where
    the single pass leaves 6. *)
Theorem VectorHadamardIncrement_second_pass_repeats :
  let a := replicate 65 2%float in
  let b := replicate 65 3%float in
  VectorHadamardIncrement a 1%float b
    = Some (replicate 64 6%float ++ [18%float]) /\
  single_pass a 1%float b = replicate 65 6%float /\
  VectorHadamardIncrement a 1%float b <> Some (single_pass a 1%float b).
Proof.
  intros a b.
  assert (Hcode : VectorHadamardIncrement a 1%float b
                  = Some (replicate 64 6%float ++ [18%float]))
    by (vm_compute; reflexivity).
  assert (Hpass : single_pass a 1%float b = replicate 65 6%float)
    by (vm_compute; reflexivity).
  split; [exact Hcode |]. split; [exact Hpass |].
  rewrite Hcode, Hpass. intros Heq.
  apply (inj Some) in Heq.
  apply (f_equal (fun l : list float => l !! 64%nat)) in Heq.
  vm_compute in Heq.
  apply (inj Some) in Heq.
  float_discriminate Heq.
Qed.

(** ** The difference of two vectors *)

Section AxpyFacts.
Context {T : Type} `{Scalar T}.
Implicit Types x y a b output : list T.

Lemma daxpy_spec (N : Z) (alpha : T) x y :
  0 <= N -> N <= size x -> N <= size y -> seqb alpha s0 = false ->
  exists y',
    daxpy N alpha x y = Some y' /\
    length y' = length y /\
    (forall (k : nat) (yk xk : T),
       Z.of_nat k < N -> y !! k = Some yk -> x !! k = Some xk ->
       y' !! k = Some (sadd yk (smul alpha xk))) /\
    (forall k : nat, N <= Z.of_nat k -> y' !! k = y !! k).
Proof.
  intros HN Hx Hy Halpha. unfold daxpy, size in *.
  destruct (Z.leb_spec N 0) as [H0 | Hpos].
  - exists y. split; [reflexivity |]. split; [reflexivity |].
    split; [intros; lia | reflexivity].
  - rewrite Halpha.
    destruct (Z.leb_spec N (Z.of_nat (length x))); [| lia].
    destruct (Z.leb_spec N (Z.of_nat (length y))); [| lia].
    simpl. eexists. split; [reflexivity |].
    assert (Hzip : length (zip_with (fun yi xi => sadd yi (smul alpha xi))
                     (take (Z.to_nat N) y) (take (Z.to_nat N) x))
                   = Z.to_nat N).
    { rewrite length_zip_with, !length_take. lia. }
    split; [| split].
    + rewrite length_app, Hzip, length_drop. lia.
    + intros k yk xk Hk Hyk Hxk.
      rewrite lookup_app_l by lia.
      rewrite lookup_zip_with.
      rewrite !lookup_take_lt by lia.
      rewrite Hyk, Hxk. reflexivity.
    + intros k Hk.
      rewrite lookup_app_r by lia.
      rewrite Hzip, lookup_drop. f_equal. lia.
Qed.

(** [VectorDiff] in the terms of the kernel: [a_i + (-1) * b_i] over the
    length that [output] had when the call was made. *)
Lemma VectorDiff_spec output a b :
  seqb (sopp s1) s0 = false ->
  length a = length b -> (length output <= length a)%nat ->
  size output < 2 ^ 31 ->
  exists output',
    VectorDiff output a b = Some output' /\
    length output' = length a /\
    (forall (i : nat) (x y : T),
       (i < length output)%nat -> a !! i = Some x -> b !! i = Some y ->
       output' !! i = Some (sadd x (smul (sopp s1) y))) /\
    (forall i : nat, (length output <= i)%nat -> output' !! i = a !! i).
Proof.
  intros Hone Hab Hlen Hint. unfold VectorDiff.
  assert (0 <= size output) by (unfold size; lia).
  rewrite to_int_small by lia.
  destruct (daxpy_spec (size output) (sopp s1) b a)
    as (output' & Hrun & Hlen' & Hin & Hout);
    try (unfold size in *; lia); [exact Hone |].
  exists output'. split; [exact Hrun |]. split; [exact Hlen' |].
  split.
  - intros i x y Hi Hx Hy. apply Hin; [unfold size; lia | exact Hx | exact Hy].
  - intros i Hi. apply Hout. unfold size. lia.
Qed.

End AxpyFacts.

(** *** Subtraction in binary64 *)

Lemma SFmul_minus_one_finite (s : bool) (m : positive) (e : Z) :
  bounded prec emax m e = true ->
  SF64mul (S754_finite true 4503599627370496 (-52)) (S754_finite s m e)
  = S754_finite (negb s) m e.
Proof.
  intros Hb. unfold bounded, canonical_mantissa in Hb.
  apply andb_true_iff in Hb as [Hc He].
  apply Z.eqb_eq in Hc.
  unfold SF64mul, SFmul, binary_round_aux.
  change (Pos.mul 4503599627370496 m) with
    (Pos.iter xO m 52).
  unfold shr_fexp at 1.
  cbn [Pos.iter Zdigits2 digits2_pos].
  replace (Z.pos _ + (-52 + e)) with (Z.pos (digits2_pos m) + e)
    by (rewrite !Pos2Z.inj_succ; lia).
  rewrite Hc.
  replace (e - (-52 + e)) with 52 by lia.
  cbn [shr shr_record_of_loc SpecFloat.iter_pos shr_1 orb].
  cbn [shr_m loc_of_shr_record round_nearest_even].
  unfold shr_fexp. cbn [Zdigits2].
  replace (-52 + e + 52) with e by lia.
  rewrite Hc, Z.sub_diag. cbn [shr shr_record_of_loc shr_m].
  rewrite He. reflexivity.
Qed.

Lemma SFmul_minus_one (y : spec_float) :
  valid_binary y = true ->
  SF64mul (S754_finite true 4503599627370496 (-52)) y = SFopp y.
Proof.
  destruct y as [s | s | | s m e]; try reflexivity.
  apply SFmul_minus_one_finite.
Qed.

Lemma SFadd_opp (x y : spec_float) : SF64add x (SFopp y) = SF64sub x y.
Proof.
  destruct x as [sx | sx | | sx mx ex], y as [sy | sy | | sy my ey];
    try reflexivity; destruct sx, sy; reflexivity.
Qed.

(** Adding [(-1) * y] is subtracting [y], exactly. *)
Lemma double_sub_as_axpy (x y : float) :
  sadd x (smul (sopp s1) y) = ssub x y.
Proof.
  simpl. apply Prim2SF_inj.
  rewrite add_spec, mul_spec, sub_spec.
  change (Prim2SF (- 1)%float) with (S754_finite true 4503599627370496 (-52)).
  rewrite SFmul_minus_one by apply Prim2SF_valid.
  apply SFadd_opp.
Qed.

(** C10: [VectorDiff] subtracts over the length that [output] had before the
    call: for [a] and [b] of equal length and an [output] of length
    [n0 <= a.size()] (within an [int]), [output] ends with the length of [a],
    its first [n0] elements are [a_i - b_i], and every element from [n0] on
    is [a_i], nothing subtracted. *)
Theorem VectorDiff_subtracts_over_pre_call_length (output a b : list float) :
  length a = length b -> (length output <= length a)%nat ->
  size output < 2 ^ 31 ->
  exists output' : list float,
    VectorDiff output a b = Some output' /\
    length output' = length a /\
    (forall (i : nat) (x y : float),
       (i < length output)%nat -> a !! i = Some x -> b !! i = Some y ->
       output' !! i = Some (x - y)%float) /\
    (forall i : nat, (length output <= i)%nat -> output' !! i = a !! i).
Proof.
  intros Hab Hlen Hint.
  destruct (VectorDiff_spec output a b) as (output' & Hrun & Hlen' & Hin & Hout);
    try assumption; [reflexivity |].
  exists output'. split; [exact Hrun |]. split; [exact Hlen' |].
  split; [| exact Hout].
  intros i x y Hi Hx Hy. rewrite (Hin i x y Hi Hx Hy).
  f_equal. apply double_sub_as_axpy.
Qed.

Lemma VectorDiff_subtracts_over_pre_call_length_witness :
  exists output' : list float,
    VectorDiff [0; 0]%float [5; 7; 9]%float [1; 2; 3]%float = Some output' /\
    length output' = 3%nat /\
    (forall (i : nat) (x y : float),
       (i < 2)%nat ->
       [5; 7; 9]%float !! i = Some x -> [1; 2; 3]%float !! i = Some y ->
       output' !! i = Some (x - y)%float) /\
    (forall i : nat, (2 <= i)%nat -> output' !! i = [5; 7; 9]%float !! i).
Proof.
  apply (VectorDiff_subtracts_over_pre_call_length
           [0; 0]%float [5; 7; 9]%float [1; 2; 3]%float).
  - reflexivity.
  - simpl. lia.
  - vm_compute. reflexivity.
Defined.

(** ** The Hadamard product *)

Section HadamardFacts.
Context {T : Type} `{Scalar T}.
Implicit Types a b c x y : list T.






End HadamardFacts.


(** *** Sums with a zero in binary64 *)





(** With [scale == 0] the kernel returns before it reads [a]: an infinite
    [a_0] leaves [c_0 = 0], where every product with [a_0] is not a number. *)
Example VectorHadamard_zero_scale_masks_infinity :
  VectorHadamard [5%float] 0%float [infinity] [1%float] = Some [0%float] /\
  PrimFloat.is_nan (0 * infinity * 1) = true.
Proof. split; vm_compute; reflexivity. Qed.


(** ** Random vectors *)

Section RandomFacts.
Context {T : Type} `{Scalar T}.
Variable distribution : T -> T -> (Z -> Z * Z) -> Z -> T * Z.

(** The loop reads nothing of the vector but its length. *)
Lemma SetToRandomVector_loop_length (lo hi : T) (vec1 : list T) :
  forall (vec2 : list T) (generator : Z),
    length vec1 = length vec2 ->
    SetToRandomVector_loop distribution vec1 lo hi generator
    = SetToRandomVector_loop distribution vec2 lo hi generator.
Proof.
  induction vec1 as [| x1 vec1 IH]; intros [| x2 vec2] generator Hlen;
    try discriminate Hlen.
  - reflexivity.
  - simpl.
    destruct (distribution lo hi minstd_rand_call generator) as [it generator'].
    rewrite (IH vec2 generator') by (simpl in Hlen; lia).
    reflexivity.
Qed.

(** C7: [SetToRandomVector] is deterministic in its arguments: two calls with
    the same scale and the same seed, on vectors of the same length, write the
    same sequence of elements, whatever the vectors held before. *)
Theorem SetToRandomVector_deterministic (vec1 vec2 : list T) (scale : T)
  (seed : Z) :
  length vec1 = length vec2 ->
  SetToRandomVector distribution vec1 scale seed
  = SetToRandomVector distribution vec2 scale seed.
Proof.
  intros Hlen. unfold SetToRandomVector.
  rewrite (SetToRandomVector_loop_length _ _ vec1 vec2) by exact Hlen.
  reflexivity.
Qed.

Lemma SetToRandomVector_length (vec : list T) (scale : T) (seed : Z) :
  length (SetToRandomVector distribution vec scale seed) = length vec.
Proof.
  unfold SetToRandomVector.
  generalize (minstd_rand_seed seed) as generator.
  induction vec as [| x vec IH]; intros generator; [reflexivity |].
  simpl.
  destruct (distribution (sopp scale) scale minstd_rand_call generator)
    as [it generator'].
  specialize (IH generator').
  destruct (SetToRandomVector_loop distribution vec (sopp scale) scale generator').
  simpl in *. lia.
Qed.

End RandomFacts.

Lemma SetToRandomVector_deterministic_witness :
  SetToRandomVector two_draw_distribution [0; 0; 0]%float 1%float 42
  = SetToRandomVector two_draw_distribution [1; 2; 3]%float 1%float 42.
Proof.
  apply (SetToRandomVector_deterministic two_draw_distribution
           [0; 0; 0]%float [1; 2; 3]%float 1%float 42).
  reflexivity.
Defined.

(** ** The matrix container *)

Section MatrixFacts.
Context {T : Type} `{Scalar T}.
Implicit Types m : matrix T.

Lemma matrix_default_wf : matrix_wf (matrix_default (T := T)).
Proof. unfold matrix_wf, matrix_default, size. simpl. lia. Qed.

(** As long as the product of the dimensions fits an [unsigned int], [resize]
    establishes the invariant. *)
Lemma matrix_resize_wf m (dLeading dSecond : Z) :
  0 <= dLeading -> 0 <= dSecond -> dLeading * dSecond < 2 ^ 32 ->
  let m' := matrix_resize m dLeading dSecond in
  m_dLeading m' = dLeading /\ m_dSecond m' = dSecond /\ matrix_wf m'.
Proof.
  intros HL HS Hfit. unfold matrix_wf, matrix_resize, size. simpl.
  rewrite length_resize, to_uint_small by nia.
  repeat split; nia.
Qed.

(** In general the buffer holds the product of the dimensions modulo 2^32. *)
Lemma matrix_resize_length m (dLeading dSecond : Z) :
  size (m_data (matrix_resize m dLeading dSecond))
  = (dLeading * dSecond) mod 2 ^ 32.
Proof.
  unfold matrix_resize, size, to_uint. simpl.
  rewrite length_resize.
  pose proof (Z.mod_pos_bound (dLeading * dSecond) (2 ^ 32) ltac:(lia)).
  lia.
Qed.

Lemma vector_at_OutOfRange {A} (v : list A) (n : Z) :
  vector_at v n = OutOfRange <-> size v <= n.
Proof.
  unfold vector_at.
  destruct (Z.ltb_spec n (size v)); split; intros; try lia; try discriminate.
  reflexivity.
Qed.

Lemma to_uint_bounds (z : Z) : 0 <= to_uint z < 2 ^ 32.
Proof. unfold to_uint. apply Z.mod_pos_bound. lia. Qed.

Lemma matrix_get_OutOfRange m (row col : Z) :
  matrix_get m row col = OutOfRange
  <-> size (m_data m) <= to_uint (row * m_dSecond m + col).
Proof.
  unfold matrix_get, vector_at.
  pose proof (to_uint_bounds (row * m_dSecond m + col)) as Hb.
  destruct (Z.ltb_spec (to_uint (row * m_dSecond m + col)) (size (m_data m)))
    as [Hlt | Hge].
  - destruct (lookup_lt_is_Some_2 (m_data m)
                (Z.to_nat (to_uint (row * m_dSecond m + col))))
      as [x Hx]; [unfold size in Hlt; lia |].
    rewrite Hx. split; [discriminate | lia].
  - split; [intros _; exact Hge | reflexivity].
Qed.

Lemma matrix_ref_OutOfRange m (row col : Z) :
  matrix_ref m row col = OutOfRange
  <-> size (m_data m) <= to_uint (row * m_dSecond m + col).
Proof. apply vector_at_OutOfRange. Qed.

(** Within the bounds of a well-formed matrix the offset is not reduced
    modulo 2^32 and lies in the buffer. *)
Lemma matrix_offset_in_bounds m (row col : Z) :
  matrix_wf m -> m_dLeading m * m_dSecond m < 2 ^ 32 ->
  0 <= row < m_dLeading m -> 0 <= col < m_dSecond m ->
  to_uint (row * m_dSecond m + col) = row * m_dSecond m + col /\
  0 <= row * m_dSecond m + col < size (m_data m).
Proof.
  intros (HL & HS & Hsize) Hfit Hrow Hcol.
  assert (Hoff : 0 <= row * m_dSecond m + col < size (m_data m)) by nia.
  split; [apply to_uint_small; lia | exact Hoff].
Qed.

Lemma matrix_ref_in_bounds m (row col : Z) :
  matrix_wf m -> m_dLeading m * m_dSecond m < 2 ^ 32 ->
  0 <= row < m_dLeading m -> 0 <= col < m_dSecond m ->
  matrix_ref m row col = Ok (Z.to_nat (row * m_dSecond m + col)).
Proof.
  intros Hwf Hfit Hrow Hcol.
  destruct (matrix_offset_in_bounds m row col Hwf Hfit Hrow Hcol) as [Hu Hoff].
  unfold matrix_ref, vector_at. rewrite Hu.
  destruct (Z.ltb_spec (row * m_dSecond m + col) (size (m_data m))); [| lia].
  reflexivity.
Qed.

Lemma matrix_get_in_bounds m (row col : Z) :
  matrix_wf m -> m_dLeading m * m_dSecond m < 2 ^ 32 ->
  0 <= row < m_dLeading m -> 0 <= col < m_dSecond m ->
  exists x : T,
    m_data m !! Z.to_nat (row * m_dSecond m + col) = Some x /\
    matrix_get m row col = Ok x.
Proof.
  intros Hwf Hfit Hrow Hcol.
  destruct (matrix_offset_in_bounds m row col Hwf Hfit Hrow Hcol) as [Hu Hoff].
  destruct (lookup_lt_is_Some_2 (m_data m)
              (Z.to_nat (row * m_dSecond m + col)))
    as [x Hx]; [unfold size in Hoff; lia |].
  exists x. split; [exact Hx |].
  unfold matrix_get, vector_at. rewrite Hu.
  destruct (Z.ltb_spec (row * m_dSecond m + col) (size (m_data m))); [| lia].
  rewrite Hx. reflexivity.
Qed.

(** Writing through the reference changes that element only. *)
Lemma matrix_set_in_bounds m (row col : Z) (value : T) :
  matrix_wf m -> m_dLeading m * m_dSecond m < 2 ^ 32 ->
  0 <= row < m_dLeading m -> 0 <= col < m_dSecond m ->
  matrix_set m row col value
  = Ok {| m_dLeading := m_dLeading m;
          m_dSecond := m_dSecond m;
          m_data := <[Z.to_nat (row * m_dSecond m + col) := value]> (m_data m) |}.
Proof.
  intros Hwf Hfit Hrow Hcol.
  unfold matrix_set.
  rewrite (matrix_ref_in_bounds m row col Hwf Hfit Hrow Hcol).
  reflexivity.
Qed.

(** C4, as amended: [operator()(row, col)] fails with the out-of-range error
    exactly when the offset [row*secondDim + col], computed in [unsigned int],
    is not below the length of the buffer.  On a matrix whose buffer holds
    [leadingDim * secondDim] elements (a product within an [unsigned int])
    an access with [0 <= row < leadingDim] and [0 <= col < secondDim] never
    fails: it returns, or refers to, the buffer element at offset
    [row*secondDim + col]. *)
Theorem matrix_access_checks_flat_offset m (row col : Z) :
  matrix_wf m -> m_dLeading m * m_dSecond m < 2 ^ 32 ->
  0 <= row -> 0 <= col ->
  (matrix_get m row col = OutOfRange
     <-> size (m_data m) <= to_uint (row * m_dSecond m + col)) /\
  (matrix_ref m row col = OutOfRange
     <-> size (m_data m) <= to_uint (row * m_dSecond m + col)) /\
  (row < m_dLeading m -> col < m_dSecond m ->
   matrix_ref m row col = Ok (Z.to_nat (row * m_dSecond m + col)) /\
   exists x : T,
     m_data m !! Z.to_nat (row * m_dSecond m + col) = Some x /\
     matrix_get m row col = Ok x).
Proof.
  intros Hwf Hfit Hrow Hcol.
  split; [apply matrix_get_OutOfRange |].
  split; [apply matrix_ref_OutOfRange |].
  intros Hr Hc. split.
  - apply matrix_ref_in_bounds; try assumption; lia.
  - apply matrix_get_in_bounds; try assumption; lia.
Qed.

End MatrixFacts.

(** C4, as stated, fails: a column index outside [0, secondDim) need not
    make the access fail.  On the 2 x 3 matrix the access [(0, 4)] is at
    offset 4 of the buffer, within its 6 elements, and returns the element
    [(1, 1)]. *)
Lemma matrix_access_column_not_checked :
  ~ (forall (m : matrix float) (row col : Z),
       matrix_wf m -> 0 <= row < 2 ^ 32 -> 0 <= col < 2 ^ 32 ->
       (matrix_get m row col = OutOfRange
          <-> ~ (0 <= row < m_dLeading m /\ 0 <= col < m_dSecond m))).
Proof.
  intros Hclaim.
  destruct (Hclaim matrix_2x3 0 4) as [_ Hfail].
  - unfold matrix_wf, matrix_2x3, size. simpl. lia.
  - lia.
  - lia.
  - assert (Hget : matrix_get matrix_2x3 0 4 = Ok 5%float)
      by (vm_compute; reflexivity).
    rewrite Hget in Hfail.
    specialize (Hfail ltac:(simpl; lia)).
    discriminate Hfail.
Qed.

Lemma matrix_access_checks_flat_offset_witness :
  (matrix_get matrix_2x3 1 2 = OutOfRange
     <-> size (m_data matrix_2x3) <= to_uint (1 * m_dSecond matrix_2x3 + 2)) /\
  (matrix_ref matrix_2x3 1 2 = OutOfRange
     <-> size (m_data matrix_2x3) <= to_uint (1 * m_dSecond matrix_2x3 + 2)) /\
  (1 < m_dLeading matrix_2x3 -> 2 < m_dSecond matrix_2x3 ->
   matrix_ref matrix_2x3 1 2 = Ok (Z.to_nat (1 * m_dSecond matrix_2x3 + 2)) /\
   exists x : float,
     m_data matrix_2x3 !! Z.to_nat (1 * m_dSecond matrix_2x3 + 2) = Some x /\
     matrix_get matrix_2x3 1 2 = Ok x).
Proof.
  apply (matrix_access_checks_flat_offset matrix_2x3 1 2).
  - unfold matrix_wf, matrix_2x3, size. simpl. lia.
  - simpl. lia.
  - lia.
  - lia.
Defined.

(** C9 does not hold of the code: [resize] computes [m_dLeading*m_dSecond] in
    [unsigned int].  For 65536 x 65536 the product wraps to 0: the
    dimensions are set, and the buffer is left empty instead of holding
    4294967296 elements. *)
Theorem matrix_resize_product_wraps (m : matrix float) :
  let m' := matrix_resize m 65536 65536 in
  m_dLeading m' = 65536 /\ m_dSecond m' = 65536 /\
  m_data m' = [] /\
  m_data (matrix_new (T := float) 65536 65536) = [] /\
  size (m_data m') <> m_dLeading m' * m_dSecond m'.
Proof.
  simpl. unfold matrix_resize. simpl.
  change (Z.to_nat (to_uint 4294967296)) with 0%nat.
  rewrite resize_0. unfold size. simpl.
  repeat split; lia.
Qed.

(** ** Synchronisation *)

Section SyncFacts.
Context {T : Type} `{Scalar T}.

Lemma mapM_constant {A B} (f : A -> option B) (l : list A) (c : B) :
  (forall (i : nat) (x : A), l !! i = Some x -> f x = Some c) ->
  mapM f l = Some (replicate (length l) c).
Proof.
  induction l as [| x l IH]; intros Hall; [reflexivity |].
  simpl. rewrite (Hall 0%nat x eq_refl). simpl.
  rewrite IH; [reflexivity |].
  intros i y Hy. exact (Hall (S i) y Hy).
Qed.

Lemma Sync_scalar_source {A} (syncNode : Z) (values : list A) (src : A) :
  0 <= syncNode -> values !! Z.to_nat syncNode = Some src ->
  Sync_scalar syncNode values = Some (replicate (length values) src).
Proof.
  intros Hnode Hsrc. unfold Sync_scalar.
  destruct (Z.ltb_spec syncNode 0); [lia |].
  rewrite Hsrc. reflexivity.
Qed.

(** A rank whose buffer has the length of the source buffer receives that
    buffer whole. *)
Lemma Sync_rank_whole {A} (src buffer : list A) :
  length buffer = length src ->
  (length src = 0%nat -> buffer = src) ->
  Sync_rank src (buffer, size src) = Some src.
Proof.
  intros Hlen Hempty. unfold Sync_rank, size.
  destruct (Z.leb_spec (Z.of_nat (length src)) 0) as [H0 | Hpos].
  - rewrite Hempty by lia. reflexivity.
  - rewrite Hlen.
    destruct (Z.leb_spec (Z.of_nat (length src)) (Z.of_nat (length src)));
      [| lia].
    simpl. rewrite Nat2Z.id, firstn_all, drop_ge by lia.
    rewrite app_nil_r. reflexivity.
Qed.

Lemma MpiSyncVector_source (vectors : list (list T)) (syncNode : Z)
  (source : list T) :
  0 <= syncNode ->
  vectors !! Z.to_nat syncNode = Some source ->
  size source < 2 ^ 32 ->
  MpiSyncVector vectors syncNode = Some (replicate (length vectors) source).
Proof.
  intros Hnode Hsrc Hfit. unfold MpiSyncVector.
  assert (Hsize : 0 <= size source) by (unfold size; lia).
  rewrite (Sync_scalar_source syncNode _ (size source)); [| exact Hnode |].
  2:{ rewrite list_lookup_fmap, Hsrc. simpl.
      rewrite to_uint_small by lia. reflexivity. }
  simpl. rewrite length_fmap.
  set (ranks := imap (MpiSyncVector_resize syncNode)
                  (zip vectors (replicate (length vectors) (size source)))).
  assert (Hlen : length ranks = length vectors).
  { unfold ranks. rewrite length_imap, length_zip_with, length_replicate. lia. }
  assert (Hrank : forall (i : nat) (rank : list T * Z),
             ranks !! i = Some rank ->
             exists vector,
               vectors !! i = Some vector /\
               rank = MpiSyncVector_resize syncNode i (vector, size source)).
  { intros i rank Hi. unfold ranks in Hi.
    rewrite list_lookup_imap in Hi.
    destruct (zip vectors (replicate (length vectors) (size source)) !! i)
      as [[vector dim] |] eqn:Hz; [| discriminate Hi].
    apply lookup_zip_with_Some in Hz as (v & d & Hvd & Hv & Hd).
    apply lookup_replicate_1 in Hd as [-> _].
    injection Hvd as -> ->.
    exists v. split; [exact Hv |].
    simpl in Hi. injection Hi as <-. reflexivity. }
  unfold Sync.
  destruct (Z.ltb_spec syncNode 0); [lia |].
  destruct (lookup_lt_is_Some_2 ranks (Z.to_nat syncNode)) as [rankR HrankR].
  { apply lookup_lt_Some in Hsrc. lia. }
  rewrite HrankR.
  destruct (Hrank _ _ HrankR) as (vector & Hvector & ->).
  rewrite Hsrc in Hvector. injection Hvector as <-.
  unfold MpiSyncVector_resize at 1.
  destruct (Z.eqb_spec syncNode (Z.of_nat (Z.to_nat syncNode))); [| lia].
  simpl. rewrite <- Hlen.
  apply mapM_constant.
  intros i rank Hi.
  destruct (Hrank _ _ Hi) as (vector & Hvector & ->).
  unfold MpiSyncVector_resize.
  destruct (Z.eqb_spec syncNode (Z.of_nat i)) as [Heq | Hne].
  - replace i with (Z.to_nat syncNode) in Hvector by lia.
    rewrite Hsrc in Hvector. injection Hvector as <-.
    apply Sync_rank_whole; reflexivity.
  - apply Sync_rank_whole.
    + rewrite length_resize. unfold size. lia.
    + intros Hempty. apply nil_length_inv in Hempty. rewrite Hempty.
      apply resize_0.
Qed.

(** C6: after a synchronisation call with source rank [syncNode], every
    rank's vector ([MpiSyncVector]) or matrix ([matrix::MpiSync]) has the
    dimensions and the element values that the container had on the source
    rank before the call, the source rank's own container included (a source
    buffer of fewer than 2^32 elements, its length being passed as an
    [unsigned int]). *)
Theorem MpiSync_replicates_source_rank
  (vectors : list (list T)) (matrices : list (matrix T)) (syncNode : Z)
  (source_vector : list T) (source_matrix : matrix T) :
  0 <= syncNode ->
  vectors !! Z.to_nat syncNode = Some source_vector ->
  size source_vector < 2 ^ 32 ->
  matrices !! Z.to_nat syncNode = Some source_matrix ->
  size (m_data source_matrix) < 2 ^ 32 ->
  MpiSyncVector vectors syncNode
    = Some (replicate (length vectors) source_vector) /\
  matrix_MpiSync matrices syncNode
    = Some (replicate (length matrices) source_matrix).
Proof.
  intros Hnode Hvec Hvfit Hmat Hmfit.
  split; [apply MpiSyncVector_source; assumption |].
  unfold matrix_MpiSync.
  rewrite (Sync_scalar_source syncNode (m_dLeading <$> matrices)
             (m_dLeading source_matrix));
    [| exact Hnode | rewrite list_lookup_fmap, Hmat; reflexivity].
  simpl.
  rewrite (Sync_scalar_source syncNode (m_dSecond <$> matrices)
             (m_dSecond source_matrix));
    [| exact Hnode | rewrite list_lookup_fmap, Hmat; reflexivity].
  simpl.
  rewrite (MpiSyncVector_source (m_data <$> matrices) syncNode
             (m_data source_matrix));
    [| exact Hnode | rewrite list_lookup_fmap, Hmat; reflexivity | exact Hmfit].
  simpl. rewrite !length_fmap.
  rewrite (zip_with_replicate pair), zip_with_replicate.
  destruct source_matrix. reflexivity.
Qed.

End SyncFacts.

Lemma MpiSync_replicates_source_rank_witness :
  MpiSyncVector [[1; 2]%float; [7; 8; 9]%float; []] 1
    = Some (replicate 3 [7; 8; 9]%float) /\
  matrix_MpiSync [matrix_default; matrix_2x3] 1
    = Some (replicate 2 matrix_2x3).
Proof.
  apply (MpiSync_replicates_source_rank
           [[1; 2]%float; [7; 8; 9]%float; []]
           [matrix_default; matrix_2x3] 1 [7; 8; 9]%float matrix_2x3).
  - lia.
  - reflexivity.
  - vm_compute. reflexivity.
  - reflexivity.
  - vm_compute. reflexivity.
Defined.

(** ** Worked examples *)

Example ToSubVector_example :
  ToSubVector [0; 0; 0; 0; 0]%float [10; 11; 12; 13; 14; 15]%float 1 [1; 3]
  = Some [11; 0; 12; 0; 13]%float.
Proof. vm_compute. reflexivity. Qed.

Example FromSubVector_example :
  FromSubVector [11; 0; 12; 0; 13]%float [0; 0; 0; 0; 0; 0]%float 1 [1; 3]
  = Some [0; 11; 12; 13; 0; 0]%float.
Proof. vm_compute. reflexivity. Qed.

(** An entry of [zeros] at the very start or end makes an empty run. *)
Example ToSubVector_empty_runs :
  ToSubVector [0; 0; 0; 0]%float [10; 11; 12]%float 0 [0; 3]
  = Some [0; 10; 11; 0]%float.
Proof. vm_compute. reflexivity. Qed.

Example VectorDiff_example :
  VectorDiff [0; 0]%float [5; 7; 9]%float [1; 2; 3]%float
  = Some [4; 5; 9]%float.
Proof. vm_compute. reflexivity. Qed.

Example VectorHadamard_example :
  VectorHadamard [9; 9]%float 2%float [3; 4]%float [5; 6]%float
  = Some [30; 48]%float.
Proof. vm_compute. reflexivity. Qed.

Example VectorHadamardIncrement_example :
  VectorHadamardIncrement [2; 4]%float 10%float [3; 5]%float
  = Some [60; 200]%float.
Proof. vm_compute. reflexivity. Qed.

Example matrix_get_example :
  matrix_get matrix_2x3 1 1 = Ok 5%float /\
  matrix_get matrix_2x3 0 4 = Ok 5%float /\
  matrix_get matrix_2x3 2 0 = OutOfRange.
Proof. vm_compute. repeat split. Qed.

Example minstd_rand_example :
  minstd_rand_call (minstd_rand_seed 1) = (48271, 48271).
Proof. vm_compute. reflexivity. Qed.

(** * Further properties *)

(** ** Sub-vector packing, position by position *)

Section SubVectorPositions.
Context {T : Type}.
Implicit Types sub input output : list T.

Lemma increasing_from_In (zeros : list Z) (nzStart k : Z) :
  increasing_from nzStart zeros -> In k zeros -> nzStart <= k.
Proof.
  revert nzStart.
  induction zeros as [| z zeros IH]; intros nzStart Hinc Hin; [destruct Hin |].
  destruct Hinc as [Hz Hinc]. destruct Hin as [-> | Hin]; [exact Hz |].
  specialize (IH (z + 1) Hinc Hin). lia.
Qed.

Lemma zeros_below_none (zeros : list Z) (nzStart k : Z) :
  increasing_from nzStart zeros -> k <= nzStart -> zeros_below zeros k = 0.
Proof.
  revert nzStart.
  induction zeros as [| z zeros IH]; intros nzStart Hinc Hk; [reflexivity |].
  destruct Hinc as [Hz Hinc]. simpl.
  destruct (Z.ltb_spec z k); [lia |].
  rewrite (IH (z + 1)) by (try exact Hinc; lia). reflexivity.
Qed.

Lemma zeros_below_bounds (zeros : list Z) (k : Z) :
  0 <= zeros_below zeros k <= size zeros.
Proof.
  induction zeros as [| z zeros IH]; unfold size in *; simpl; [lia |].
  destruct (z <? k); lia.
Qed.

(** Run-wise agreement, read position by position. *)
Lemma segments_agree_position sub input (zeros : list Z) :
  forall (cum st : Z),
    increasing_from st zeros ->
    segments_agree sub input zeros cum st ->
    forall k : nat,
      st <= Z.of_nat k < size sub -> ~ In (Z.of_nat k) zeros ->
      sub !! k
      = input !! Z.to_nat (cum + (Z.of_nat k - st)
                           - zeros_below zeros (Z.of_nat k)).
Proof.
  induction zeros as [| z zeros IH]; intros cum st Hinc Hagree k Hk Hnot.
  - simpl in *. rewrite Hagree by lia. f_equal. lia.
  - destruct Hinc as [Hz Hinc]. destruct Hagree as [Hhead Hagree].
    assert (Hne : Z.of_nat k <> z) by (intros E; apply Hnot; left; lia).
    assert (Hnot' : ~ In (Z.of_nat k) zeros)
      by (intros E; apply Hnot; right; exact E).
    simpl zeros_below.
    destruct (Z.ltb_spec z (Z.of_nat k)) as [Hgt | Hle].
    + rewrite (IH (cum + (z - st)) (z + 1) Hinc Hagree k) by (try lia; exact Hnot').
      f_equal. lia.
    + rewrite (zeros_below_none zeros (z + 1)) by (try exact Hinc; lia).
      rewrite Hhead by lia. f_equal. lia.
Qed.

(** [ToSubVector] keeps what [sub] holds before the first run and at the
    entries of [zeros]. *)
Lemma ToSubVector_from_keeps input (zeros : list Z) :
  size input < 2 ^ 31 ->
  forall sub (cum st : Z),
    size sub < 2 ^ 31 ->
    0 <= cum -> 0 <= st <= size sub ->
    increasing_from st zeros ->
    Forall (fun z => z < size sub) zeros ->
    cum + (size sub - st - size zeros) <= size input ->
    exists sub',
      ToSubVector_from zeros sub input cum st = Some sub' /\
      (forall k : nat,
         Z.of_nat k < st \/ In (Z.of_nat k) zeros -> sub' !! k = sub !! k).
Proof.
  intros Hinput.
  induction zeros as [| z zeros IH]; intros sub cum st Hsub Hcum Hst Hinc Hlt Hfit.
  - unfold ToSubVector_from. simpl.
    change (size (@nil Z)) with 0 in Hfit.
    rewrite to_int_small by lia.
    destruct (CopyVector_spec sub st input cum (size sub - st))
      as (sub' & Hcopy & Hlen & Hin & Hout); try lia.
    exists sub'. split; [exact Hcopy |].
    intros k [Hk | []]. apply Hout. lia.
  - destruct Hinc as [Hz Hinc].
    inversion Hlt as [| ? ? Hzsub Hlt']; subst.
    assert (Hsz : size (z :: zeros) = size zeros + 1)
      by (unfold size; simpl; lia).
    rewrite Hsz in Hfit.
    assert (Hzeros : 0 <= size zeros) by (unfold size; lia).
    pose proof (increasing_from_count zeros (z + 1) (size sub) Hinc Hlt') as Hcount.
    unfold ToSubVector_from. simpl.
    rewrite to_int_to_uint_small by lia.
    rewrite (to_int_to_uint_small (z + 1)) by lia.
    rewrite (to_int_small (cum + (z - st))) by lia.
    destruct (CopyVector_spec sub st input cum (z - st))
      as (sub1 & Hcopy & Hlen1 & Hin1 & Hout1); try lia.
    assert (Hstep :
      (if z - st =? 0 then Some sub
       else CopyVector sub st input cum (z - st)) = Some sub1).
    { destruct (Z.eqb_spec (z - st) 0) as [E | E]; [| exact Hcopy].
      rewrite E in Hcopy. rewrite CopyVector_nothing in Hcopy by lia.
      exact Hcopy. }
    rewrite Hstep. simpl.
    assert (Hsize1 : size sub1 = size sub) by (unfold size; lia).
    destruct (IH sub1 (cum + (z - st)) (z + 1))
      as (sub' & Hrun & Hkeep); try lia.
    { exact Hinc. }
    { rewrite Hsize1. exact Hlt'. }
    exists sub'. split; [exact Hrun |].
    intros k [Hk | [Hk | Hk]].
    + rewrite Hkeep by (left; lia). apply Hout1. lia.
    + rewrite Hkeep by (left; lia). apply Hout1. lia.
    + pose proof (increasing_from_In zeros (z + 1) _ Hinc Hk).
      rewrite Hkeep by (right; exact Hk). apply Hout1. lia.
Qed.

(** [FromSubVector] leaves in the output, run by run, what [sub] holds, and
    touches nothing outside the range it fills. *)
Lemma FromSubVector_from_scatter sub (zeros : list Z) :
  size sub < 2 ^ 31 ->
  forall output (cum st : Z),
    size output < 2 ^ 31 ->
    0 <= cum -> 0 <= st <= size sub ->
    increasing_from st zeros ->
    Forall (fun z => z < size sub) zeros ->
    cum + (size sub - st - size zeros) <= size output ->
    exists output',
      FromSubVector_from zeros sub output cum st = Some output' /\
      length output' = length output /\
      segments_agree sub output' zeros cum st /\
      (forall k : nat,
         ~ (cum <= Z.of_nat k < cum + (size sub - st - size zeros)) ->
         output' !! k = output !! k).
Proof.
  intros Hsub.
  induction zeros as [| z zeros IH];
    intros output cum st Hout Hcum Hst Hinc Hlt Hfit.
  - unfold FromSubVector_from. simpl.
    change (size (@nil Z)) with 0 in *.
    rewrite to_int_small by lia.
    destruct (CopyVector_spec output cum sub st (size sub - st))
      as (output' & Hcopy & Hlen' & Hin & Hkeep); try lia.
    exists output'. split; [exact Hcopy |]. split; [exact Hlen' |].
    split.
    + intros k Hk.
      rewrite (Hin (Z.to_nat (cum + (Z.of_nat k - st)))) by lia.
      f_equal. lia.
    + intros k Hk. apply Hkeep. lia.
  - destruct Hinc as [Hz Hinc].
    inversion Hlt as [| ? ? Hzsub Hlt']; subst.
    assert (Hsz : size (z :: zeros) = size zeros + 1)
      by (unfold size; simpl; lia).
    rewrite Hsz in *.
    assert (Hzeros : 0 <= size zeros) by (unfold size; lia).
    pose proof (increasing_from_count zeros (z + 1) (size sub) Hinc Hlt') as Hcount.
    unfold FromSubVector_from. simpl.
    rewrite to_int_to_uint_small by lia.
    rewrite (to_int_to_uint_small (z + 1)) by lia.
    rewrite (to_int_small (cum + (z - st))) by lia.
    destruct (CopyVector_spec output cum sub st (z - st))
      as (output1 & Hcopy & Hlen1 & Hin1 & Hout1); try lia.
    assert (Hstep :
      (if z - st =? 0 then Some output
       else CopyVector output cum sub st (z - st)) = Some output1).
    { destruct (Z.eqb_spec (z - st) 0) as [E | E]; [| exact Hcopy].
      rewrite E in Hcopy. rewrite CopyVector_nothing in Hcopy by lia.
      exact Hcopy. }
    rewrite Hstep. simpl.
    assert (Hsize1 : size output1 = size output) by (unfold size; lia).
    destruct (IH output1 (cum + (z - st)) (z + 1))
      as (output' & Hrun & Hlen' & Hagree & Hkeep); try lia.
    { exact Hinc. }
    { exact Hlt'. }
    exists output'. split; [exact Hrun |].
    split; [lia |]. split; [split |].
    + intros k Hk.
      rewrite Hkeep by lia.
      rewrite (Hin1 (Z.to_nat (cum + (Z.of_nat k - st)))) by lia.
      f_equal. lia.
    + exact Hagree.
    + intros k Hk. rewrite Hkeep by lia. apply Hout1. lia.
Qed.

End SubVectorPositions.

Section SubVectorExtras.
Context {T : Type}.
Implicit Types sub input output : list T.

Lemma zeros_hypotheses sub (zeros : list Z) :
  Sorted Z.lt zeros ->
  Forall (fun z => 0 <= z < size sub) zeros ->
  increasing_from 0 zeros /\
  Forall (fun z => z < size sub) zeros /\
  0 <= size zeros <= size sub.
Proof.
  intros Hsorted Hzeros.
  assert (Hinc : increasing_from 0 zeros).
  { apply Sorted_increasing_from; [exact Hsorted |].
    eapply Forall_impl; [exact Hzeros |]. simpl. intros; lia. }
  assert (Hlt : Forall (fun z => z < size sub) zeros).
  { eapply Forall_impl; [exact Hzeros |]. simpl. intros; lia. }
  split; [exact Hinc |]. split; [exact Hlt |].
  pose proof (increasing_from_count zeros 0 (size sub) Hinc Hlt).
  unfold size in *. lia.
Qed.

(** X1: [ToSubVector] writes to every position [k] of [sub] that is not in
    [zeros] the element of [input] at [offset + k] minus the number of
    entries of [zeros] below [k], and leaves the positions listed in [zeros]
    as they were. *)
Theorem ToSubVector_position_by_position
  sub input (offset : Z) (zeros : list Z) :
  Sorted Z.lt zeros ->
  Forall (fun z => 0 <= z < size sub) zeros ->
  0 <= offset ->
  offset + (size sub - size zeros) <= size input ->
  size input < 2 ^ 31 -> size sub < 2 ^ 31 ->
  exists sub',
    ToSubVector sub input offset zeros = Some sub' /\
    length sub' = length sub /\
    (forall k : nat, In (Z.of_nat k) zeros -> sub' !! k = sub !! k) /\
    (forall k : nat,
       Z.of_nat k < size sub -> ~ In (Z.of_nat k) zeros ->
       sub' !! k
       = input !! Z.to_nat (offset + Z.of_nat k
                            - zeros_below zeros (Z.of_nat k))).
Proof.
  intros Hsorted Hzeros Hoff Hfit Hinput Hsub.
  destruct (zeros_hypotheses sub zeros Hsorted Hzeros) as (Hinc & Hlt & Hcount).
  destruct (ToSubVector_from_spec input zeros Hinput sub offset 0)
    as (sub' & Hto & Hlen & _ & Hagree); try lia; try assumption.
  destruct (ToSubVector_from_keeps input zeros Hinput sub offset 0)
    as (sub'' & Hto' & Hkeep); try lia; try assumption.
  rewrite Hto in Hto'. apply (inj Some) in Hto'. subst sub''.
  exists sub'. unfold ToSubVector.
  rewrite (to_int_small offset) by lia.
  split; [exact Hto |]. split; [exact Hlen |]. split.
  - intros k Hk. apply Hkeep. right. exact Hk.
  - intros k Hk Hnot.
    rewrite (segments_agree_position sub' input zeros offset 0 Hinc Hagree k)
      by (try exact Hnot; unfold size in *; lia).
    f_equal. lia.
Qed.

(** X2: [FromSubVector] writes every element of [sub] whose position [k] is
    not in [zeros] to the position [offset + k] minus the number of entries
    of [zeros] below [k] of the output, and leaves the output untouched
    outside the [sub.size() - zeros.size()] positions from [offset] on. *)
Theorem FromSubVector_position_by_position
  sub output (offset : Z) (zeros : list Z) :
  Sorted Z.lt zeros ->
  Forall (fun z => 0 <= z < size sub) zeros ->
  0 <= offset ->
  offset + (size sub - size zeros) <= size output ->
  size output < 2 ^ 31 -> size sub < 2 ^ 31 ->
  exists output',
    FromSubVector sub output offset zeros = Some output' /\
    length output' = length output /\
    (forall k : nat,
       Z.of_nat k < size sub -> ~ In (Z.of_nat k) zeros ->
       output' !! Z.to_nat (offset + Z.of_nat k
                            - zeros_below zeros (Z.of_nat k))
       = sub !! k) /\
    (forall j : nat,
       ~ (offset <= Z.of_nat j < offset + (size sub - size zeros)) ->
       output' !! j = output !! j).
Proof.
  intros Hsorted Hzeros Hoff Hfit Houtput Hsub.
  destruct (zeros_hypotheses sub zeros Hsorted Hzeros) as (Hinc & Hlt & Hcount).
  destruct (FromSubVector_from_scatter sub zeros Hsub output offset 0)
    as (output' & Hfrom & Hlen & Hagree & Hkeep); try lia; try assumption.
  exists output'. unfold FromSubVector.
  rewrite (to_int_small offset) by lia.
  split; [exact Hfrom |]. split; [exact Hlen |]. split.
  - intros k Hk Hnot.
    rewrite (segments_agree_position sub output' zeros offset 0 Hinc Hagree k)
      by (try exact Hnot; lia).
    f_equal. lia.
  - intros j Hj. apply Hkeep. lia.
Qed.

(** X3: the round trip in the other direction: [FromSubVector(sub, output,
    offset, zeros)] followed by [ToSubVector(sub, output, offset, zeros)]
    gives back [sub] exactly, the positions listed in [zeros] included. *)
Theorem FromSubVector_ToSubVector_restores_sub
  sub output (offset : Z) (zeros : list Z) :
  Sorted Z.lt zeros ->
  Forall (fun z => 0 <= z < size sub) zeros ->
  0 <= offset ->
  offset + (size sub - size zeros) <= size output ->
  size output < 2 ^ 31 -> size sub < 2 ^ 31 ->
  exists output',
    FromSubVector sub output offset zeros = Some output' /\
    ToSubVector sub output' offset zeros = Some sub.
Proof.
  intros Hsorted Hzeros Hoff Hfit Houtput Hsub.
  destruct (zeros_hypotheses sub zeros Hsorted Hzeros) as (Hinc & Hlt & Hcount).
  destruct (FromSubVector_from_scatter sub zeros Hsub output offset 0)
    as (output' & Hfrom & Hlen & Hagree & _); try lia; try assumption.
  assert (Hsize : size output' = size output) by (unfold size; lia).
  assert (Houtput' : size output' < 2 ^ 31) by lia.
  destruct (ToSubVector_from_spec output' zeros Houtput' sub offset 0)
    as (sub' & Hto & Hlen' & _ & Hagree'); try lia; try assumption.
  destruct (ToSubVector_from_keeps output' zeros Houtput' sub offset 0)
    as (sub'' & Hto' & Hkeep); try lia; try assumption.
  rewrite Hto in Hto'. apply (inj Some) in Hto'. subst sub''.
  assert (Hto2 : ToSubVector sub output' offset zeros = Some sub').
  { unfold ToSubVector. rewrite (to_int_small offset) by lia. exact Hto. }
  exists output'. split.
  { unfold FromSubVector. rewrite (to_int_small offset) by lia. exact Hfrom. }
  rewrite Hto2. f_equal. apply list_eq. intros k.
  destruct (Z_lt_dec (Z.of_nat k) (size sub)) as [Hk | Hk].
  - destruct (In_dec Z.eq_dec (Z.of_nat k) zeros) as [Hin | Hnot].
    + apply Hkeep. right. exact Hin.
    + rewrite (segments_agree_position sub' output' zeros offset 0
                 Hinc Hagree' k) by (try exact Hnot; unfold size in *; lia).
      rewrite (segments_agree_position sub output' zeros offset 0
                 Hinc Hagree k) by (try exact Hnot; lia).
      reflexivity.
  - rewrite !lookup_ge_None_2 by (unfold size in *; lia). reflexivity.
Qed.

End SubVectorExtras.

Lemma ToSubVector_position_by_position_witness :
  exists sub' : list float,
    ToSubVector [0; 0; 0; 0; 0]%float [10; 11; 12; 13; 14; 15]%float 1 [1; 3]
      = Some sub' /\
    length sub' = 5%nat /\
    (forall k : nat, In (Z.of_nat k) [1; 3] ->
       sub' !! k = [0; 0; 0; 0; 0]%float !! k) /\
    (forall k : nat,
       Z.of_nat k < size [0; 0; 0; 0; 0]%float -> ~ In (Z.of_nat k) [1; 3] ->
       sub' !! k
       = [10; 11; 12; 13; 14; 15]%float
           !! Z.to_nat (1 + Z.of_nat k - zeros_below [1; 3] (Z.of_nat k))).
Proof.
  apply (ToSubVector_position_by_position
           [0; 0; 0; 0; 0]%float [10; 11; 12; 13; 14; 15]%float 1 [1; 3]).
  - repeat constructor.
  - repeat constructor; vm_compute; discriminate.
  - lia.
  - vm_compute. discriminate.
  - vm_compute. reflexivity.
  - vm_compute. reflexivity.
Defined.

Lemma FromSubVector_position_by_position_witness :
  exists output' : list float,
    FromSubVector [11; 0; 12; 0; 13]%float [0; 0; 0; 0; 0; 0]%float 1 [1; 3]
      = Some output' /\
    length output' = 6%nat /\
    (forall k : nat,
       Z.of_nat k < size [11; 0; 12; 0; 13]%float -> ~ In (Z.of_nat k) [1; 3] ->
       output' !! Z.to_nat (1 + Z.of_nat k - zeros_below [1; 3] (Z.of_nat k))
       = [11; 0; 12; 0; 13]%float !! k) /\
    (forall j : nat,
       ~ (1 <= Z.of_nat j
          < 1 + (size [11; 0; 12; 0; 13]%float - size [1; 3])) ->
       output' !! j = [0; 0; 0; 0; 0; 0]%float !! j).
Proof.
  apply (FromSubVector_position_by_position
           [11; 0; 12; 0; 13]%float [0; 0; 0; 0; 0; 0]%float 1 [1; 3]).
  - repeat constructor.
  - repeat constructor; vm_compute; discriminate.
  - lia.
  - vm_compute. discriminate.
  - vm_compute. reflexivity.
  - vm_compute. reflexivity.
Defined.

Lemma FromSubVector_ToSubVector_restores_sub_witness :
  exists output' : list float,
    FromSubVector [11; 7; 12; 8; 13]%float [0; 0; 0; 0; 0; 0]%float 1 [1; 3]
      = Some output' /\
    ToSubVector [11; 7; 12; 8; 13]%float output' 1 [1; 3]
      = Some [11; 7; 12; 8; 13]%float.
Proof.
  apply (FromSubVector_ToSubVector_restores_sub
           [11; 7; 12; 8; 13]%float [0; 0; 0; 0; 0; 0]%float 1 [1; 3]).
  - repeat constructor.
  - repeat constructor; vm_compute; discriminate.
  - lia.
  - vm_compute. discriminate.
  - vm_compute. reflexivity.
  - vm_compute. reflexivity.
Defined.

(** ** The in-place Hadamard product, pass by pass *)

(** X4: [VectorHadamardIncrement(a, scale, b)] multiplies the element at
    position [k] by [scale * b_k] once for every block start at or before
    [k], that is [k / 64 + 1] times: once in the first block, twice in the
    second, and so on. *)
Theorem VectorHadamardIncrement_multiplies_per_pass
  {T : Type} `{Scalar T} (a : list T) (scale : T) (b : list T) :
  (length a <= length b)%nat ->
  exists a',
    VectorHadamardIncrement a scale b = Some a' /\
    length a' = length a /\
    (forall (k : nat) (x y : T),
       a !! k = Some x -> b !! k = Some y ->
       a' !! k = Some (Nat.iter (k / block + 1)
                         (fun v => smul v (smul scale y)) x)).
Proof.
  intros Hb.
  destruct (VectorHadamardIncrement_spec a scale b Hb)
    as (a' & Hrun & Hlen & Hall).
  exists a'. split; [exact Hrun |]. split; [exact Hlen |]. exact Hall.
Qed.

Lemma VectorHadamardIncrement_multiplies_per_pass_witness :
  exists a' : list float,
    VectorHadamardIncrement (replicate 65 2%float) 1%float
      (replicate 65 3%float) = Some a' /\
    length a' = length (replicate 65 2%float) /\
    (forall (k : nat) (x y : float),
       replicate 65 2%float !! k = Some x ->
       replicate 65 3%float !! k = Some y ->
       a' !! k = Some (Nat.iter (k / block + 1)
                         (fun v => smul v (smul 1%float y)) x)).
Proof.
  apply (VectorHadamardIncrement_multiplies_per_pass
           (replicate 65 2%float) 1%float (replicate 65 3%float)).
  rewrite !length_replicate. lia.
Defined.

(** ** Scaled accumulation *)

Section AxpyExtras.
Context {T : Type} `{Scalar T}.
Implicit Types x y a b input output : list T.

Lemma daxpy_any_alpha (N : Z) (alpha : T) x y :
  0 <= N -> N <= size x -> N <= size y ->
  exists y',
    daxpy N alpha x y = Some y' /\
    length y' = length y /\
    (forall (k : nat) (yk xk : T),
       Z.of_nat k < N -> y !! k = Some yk -> x !! k = Some xk ->
       y' !! k = Some (if seqb alpha s0 then yk
                       else sadd yk (smul alpha xk))) /\
    (forall k : nat, N <= Z.of_nat k -> y' !! k = y !! k).
Proof.
  intros HN Hx Hy.
  destruct (seqb alpha s0) eqn:Halpha.
  - exists y. split.
    + unfold daxpy. rewrite Halpha. destruct (N <=? 0); reflexivity.
    + split; [reflexivity |]. split; [| reflexivity].
      intros k yk xk _ Hyk _. exact Hyk.
  - destruct (daxpy_spec N alpha x y HN Hx Hy Halpha)
      as (y' & Hrun & Hlen & Hin & Hout).
    exists y'. split; [exact Hrun |]. split; [exact Hlen |].
    split; [exact Hin | exact Hout].
Qed.


(** X6: [VectorScale(output, scale, input)] discards what [output] held: its
    first [input.size()] elements become [0 + scale * input_i] (0 when
    [scale == 0]) and every further element of [output] becomes 0; the
    length of [output] is kept. *)
Theorem VectorScale_overwrites_output output (scale : T) input :
  (length input <= length output)%nat -> size input < 2 ^ 31 ->
  exists output',
    VectorScale output scale input = Some output' /\
    length output' = length output /\
    (forall (i : nat) (x : T),
       input !! i = Some x ->
       output' !! i = Some (if seqb scale s0 then s0
                            else sadd s0 (smul scale x))) /\
    (forall i : nat,
       (length input <= i < length output)%nat -> output' !! i = Some s0).
Proof.
  intros Hlen Hint. unfold VectorScale.
  assert (0 <= size input) by (unfold size; lia).
  rewrite to_int_small by lia.
  destruct (daxpy_any_alpha (size input) scale input
              (replicate (length output) s0))
    as (output' & Hrun & Hlen' & Hin & Hout);
    try (unfold size in *; rewrite ?length_replicate; lia).
  rewrite length_replicate in Hlen'.
  exists output'. split; [exact Hrun |]. split; [exact Hlen' |].
  split.
  - intros i x Hx.
    pose proof (lookup_lt_Some _ _ _ Hx) as Hi.
    apply (Hin i s0 x); try assumption; [unfold size; lia |].
    apply lookup_replicate_2. lia.
  - intros i Hi. rewrite Hout by (unfold size; lia).
    apply lookup_replicate_2. lia.
Qed.

End AxpyExtras.


Lemma VectorScale_overwrites_output_witness :
  exists output' : list float,
    VectorScale [9; 9; 9]%float 2%float [1; 2]%float = Some output' /\
    length output' = 3%nat /\
    (forall (i : nat) (x : float),
       [1; 2]%float !! i = Some x ->
       output' !! i = Some (if seqb 2%float s0 then s0
                            else sadd s0 (smul 2%float x))) /\
    (forall i : nat, (2 <= i < 3)%nat -> output' !! i = Some s0).
Proof.
  apply (VectorScale_overwrites_output [9; 9; 9]%float 2%float [1; 2]%float).
  - simpl. lia.
  - vm_compute. reflexivity.
Defined.

(** ** Dot products and sums *)

Lemma do_loop_ext {State : Type} (f g : nat -> State -> option State)
  (count : nat) :
  (forall i s, f i s = g i s) ->
  forall (first : nat) (s : State),
    do_loop f first count s = do_loop g first count s.
Proof.
  intros Hfg.
  induction count as [| count IH]; intros first s; [reflexivity |].
  simpl. rewrite Hfg. destruct (g first s) as [s' |]; [| reflexivity].
  simpl. apply IH.
Qed.

(** *** Multiplication in binary64 *)

Lemma SFmul_comm (x y : spec_float) : SF64mul x y = SF64mul y x.
Proof.
  destruct x as [sx | sx | | sx mx ex], y as [sy | sy | | sy my ey];
    unfold SF64mul, SFmul; rewrite ?(xorb_comm sx sy); try reflexivity.
  rewrite (Pos.mul_comm mx my), (Z.add_comm ex ey). reflexivity.
Qed.

Lemma double_mul_comm (x y : float) : smul x y = smul y x.
Proof.
  simpl. apply Prim2SF_inj. rewrite !mul_spec. apply SFmul_comm.
Qed.

Lemma SFmul_one_finite (s : bool) (m : positive) (e : Z) :
  bounded prec emax m e = true ->
  SF64mul (S754_finite false 4503599627370496 (-52)) (S754_finite s m e)
  = S754_finite s m e.
Proof.
  intros Hb. unfold bounded, canonical_mantissa in Hb.
  apply andb_true_iff in Hb as [Hc He].
  apply Z.eqb_eq in Hc.
  unfold SF64mul, SFmul, binary_round_aux.
  change (Pos.mul 4503599627370496 m) with (Pos.iter xO m 52).
  unfold shr_fexp at 1.
  cbn [Pos.iter Zdigits2 digits2_pos].
  replace (Z.pos _ + (-52 + e)) with (Z.pos (digits2_pos m) + e)
    by (rewrite !Pos2Z.inj_succ; lia).
  rewrite Hc.
  replace (e - (-52 + e)) with 52 by lia.
  cbn [shr shr_record_of_loc SpecFloat.iter_pos shr_1 orb].
  cbn [shr_m loc_of_shr_record round_nearest_even].
  unfold shr_fexp. cbn [Zdigits2].
  replace (-52 + e + 52) with e by lia.
  rewrite Hc, Z.sub_diag. cbn [shr shr_record_of_loc shr_m].
  rewrite He. reflexivity.
Qed.

(** Multiplying by 1.0 changes nothing. *)
Lemma double_mul_one (x : float) : smul x s1 = x.
Proof.
  rewrite double_mul_comm. simpl.
  apply Prim2SF_inj. rewrite mul_spec.
  change (Prim2SF 1%float) with (S754_finite false 4503599627370496 (-52)).
  pose proof (Prim2SF_valid x) as Hvalid.
  destruct (Prim2SF x) as [s | s | | s m e]; try reflexivity.
  apply SFmul_one_finite. exact Hvalid.
Qed.

Section DotFacts.
Context {T : Type} `{Scalar T}.
Implicit Types a b : list T.

(** The dot product against a vector of ones, when multiplying by one is
    exact: the elements are added from left to right. *)
Lemma ddot_ones_loop a :
  (forall x : T, smul x s1 = x) ->
  forall (count first : nat) (dtemp : T),
    (first + count = length a)%nat ->
    do_loop
      (fun i dtemp =>
         xi ← a !! i;
         yi ← replicate (length a) s1 !! i;
         Some (sadd dtemp (smul xi yi)))
      first count dtemp
    = Some (fold_left sadd (drop first a) dtemp).
Proof.
  intros Hone.
  induction count as [| count IH]; intros first dtemp Hlen.
  - simpl. rewrite drop_ge by lia. reflexivity.
  - destruct (lookup_lt_is_Some_2 a first ltac:(lia)) as [x Hx].
    simpl. rewrite Hx. simpl.
    rewrite lookup_replicate_2 by lia. simpl.
    rewrite Hone, IH by lia.
    rewrite (drop_S a x first Hx). reflexivity.
Qed.

Lemma VectorSum_left_to_right a :
  (forall x : T, smul x s1 = x) ->
  size a < 2 ^ 31 ->
  VectorSum a = Some (fold_left sadd a s0).
Proof.
  intros Hone Hint. unfold VectorSum, VectorDot, ddot.
  assert (0 <= size a) by (unfold size; lia).
  rewrite to_int_small by lia.
  destruct (Z.leb_spec (size a) 0) as [Hempty | Hpos].
  - destruct a; [reflexivity | unfold size in *; simpl in *; lia].
  - unfold size. rewrite Nat2Z.id.
    rewrite (ddot_ones_loop a Hone (length a) 0 s0) by lia.
    reflexivity.
Qed.

Lemma VectorDot_symmetric a b :
  (forall x y : T, smul x y = smul y x) ->
  length a = length b ->
  VectorDot a b = VectorDot b a.
Proof.
  intros Hcomm Hlen. unfold VectorDot, ddot.
  assert (Hsize : size b = size a) by (unfold size; lia).
  rewrite Hsize.
  destruct (to_int (size a) <=? 0); [reflexivity |].
  apply do_loop_ext. intros i dtemp.
  destruct (a !! i) as [x |], (b !! i) as [y |]; simpl; try reflexivity.
  rewrite Hcomm. reflexivity.
Qed.

End DotFacts.

(** X7: on [double]s of equal length [VectorDot(a, b)] and [VectorDot(b, a)]
    return the same value, bit for bit: each product is commutative and the
    products are added in the same order. *)
Theorem VectorDot_commutative (a b : list float) :
  length a = length b -> VectorDot a b = VectorDot b a.
Proof.
  intros Hlen. apply VectorDot_symmetric; [| exact Hlen].
  exact double_mul_comm.
Qed.

Lemma VectorDot_commutative_witness :
  VectorDot [1; 2; 3]%float [4; 5; 6]%float
  = VectorDot [4; 5; 6]%float [1; 2; 3]%float.
Proof.
  apply (VectorDot_commutative [1; 2; 3]%float [4; 5; 6]%float).
  reflexivity.
Defined.

(** X8: on [double]s [VectorSum(a)] is the sum of the elements of [a] added
    from left to right to 0.0: the products with the vector of ones that it
    builds are exact (a length within an [int]). *)
Theorem VectorSum_adds_left_to_right (a : list float) :
  size a < 2 ^ 31 ->
  VectorSum a = Some (fold_left PrimFloat.add a 0%float).
Proof.
  intros Hint.
  apply (VectorSum_left_to_right a double_mul_one Hint).
Qed.

Lemma VectorSum_adds_left_to_right_witness :
  VectorSum [1; 2; 3.5]%float
  = Some (fold_left PrimFloat.add [1; 2; 3.5]%float 0%float).
Proof.
  apply (VectorSum_adds_left_to_right [1; 2; 3.5]%float).
  vm_compute. reflexivity.
Defined.

(** ** Signs and absolute values *)

Section SgnFacts.
Context {T : Type} `{ScalarOrder T}.
Implicit Types vec sgnVec : list T.

Lemma VectorSgn_loop_spec vec :
  forall (it_sgn : nat) sgnVec,
    (it_sgn + length vec <= length sgnVec)%nat ->
    exists s,
      VectorSgn_loop vec it_sgn sgnVec = Some s /\
      length s = length sgnVec /\
      (forall (i : nat) (x : T),
         vec !! i = Some x ->
         s !! (it_sgn + i)%nat
         = Some (sof_int (Z.b2z (sltb s0 x) - Z.b2z (sltb x s0)))) /\
      (forall k : nat,
         (k < it_sgn \/ it_sgn + length vec <= k)%nat ->
         s !! k = sgnVec !! k).
Proof.
  induction vec as [| x vec IH]; intros it sgnVec Hlen.
  - exists sgnVec. split; [reflexivity |]. split; [reflexivity |].
    split; [intros i y Hy; discriminate Hy | reflexivity].
  - simpl in Hlen. simpl.
    destruct (Nat.ltb_spec it (length sgnVec)); [| lia].
    set (v := sof_int (Z.b2z (sltb s0 x) - Z.b2z (sltb x s0))).
    destruct (IH (S it) (<[it := v]> sgnVec))
      as (s & Hrun & Hlen' & Hin & Hout);
      [rewrite length_insert; lia |].
    rewrite length_insert in Hlen'.
    exists s. split; [exact Hrun |]. split; [exact Hlen' |]. split.
    + intros [| i] y Hy.
      * simpl in Hy. apply (inj Some) in Hy. subst y.
        rewrite Nat.add_0_r, Hout by lia.
        apply list_lookup_insert_eq. lia.
      * simpl in Hy.
        replace (it + S i)%nat with (S it + i)%nat by lia.
        apply Hin. exact Hy.
    + intros k Hk. rewrite Hout by lia.
      apply list_lookup_insert_ne. lia.
Qed.

(** Flipping the signs does not change the absolute sum, when the absolute
    value of an opposite is that of the number. *)
Lemma VectorL1_opp_invariant (a : list T) :
  (forall x : T, sabs (sopp x) = sabs x) ->
  VectorL1 (sopp <$> a) = VectorL1 a.
Proof.
  intros Habs. unfold VectorL1, dasum.
  assert (Hsize : size (sopp <$> a) = size a)
    by (unfold size; rewrite length_fmap; reflexivity).
  rewrite Hsize.
  destruct (to_int (size a) <=? 0); [reflexivity |].
  apply do_loop_ext. intros i dtemp.
  rewrite list_lookup_fmap.
  destruct (a !! i) as [x |]; simpl; [| reflexivity].
  rewrite Habs. reflexivity.
Qed.

End SgnFacts.

(** *** Comparison with zero in binary64 *)

Lemma double_abs_opp (x : float) : sabs (sopp x) = sabs x.
Proof.
  simpl. apply Prim2SF_inj. rewrite !abs_spec, opp_spec.
  destruct (Prim2SF x); reflexivity.
Qed.

(** A [double] is not both above and below zero. *)
Lemma double_sign_exclusive (x : float) :
  PrimFloat.ltb 0 x = true -> PrimFloat.ltb x 0 = true -> False.
Proof.
  rewrite !ltb_spec.
  change (Prim2SF 0%float) with (S754_zero false).
  destruct (Prim2SF x) as [s | s | | s m e]; simpl;
    try discriminate; destruct s; discriminate.
Qed.

Lemma double_sgn_value (x : float) :
  sof_int (Z.b2z (sltb s0 x) - Z.b2z (sltb x s0)) = double_sgn x.
Proof.
  unfold double_sgn. simpl sltb. simpl s0.
  destruct (PrimFloat.ltb 0 x) eqn:Hpos, (PrimFloat.ltb x 0) eqn:Hneg;
    try reflexivity.
  destruct (double_sign_exclusive x Hpos Hneg).
Qed.

Lemma double_sgn_idempotent (x : float) :
  double_sgn (double_sgn x) = double_sgn x.
Proof.
  unfold double_sgn.
  destruct (PrimFloat.ltb 0 x), (PrimFloat.ltb x 0); reflexivity.
Qed.

Lemma VectorSgn_double_spec (sgnVec vec : list float) :
  (length vec <= length sgnVec)%nat ->
  exists s : list float,
    VectorSgn sgnVec vec = Some s /\
    length s = length sgnVec /\
    (forall (i : nat) (x : float),
       vec !! i = Some x -> s !! i = Some (double_sgn x)) /\
    (forall i : nat, (length vec <= i)%nat -> s !! i = sgnVec !! i).
Proof.
  intros Hlen.
  destruct (VectorSgn_loop_spec vec 0 sgnVec)
    as (s & Hrun & Hlen' & Hin & Hout); [lia |].
  exists s. split; [exact Hrun |]. split; [exact Hlen' |]. split.
  - intros i x Hx. rewrite <- double_sgn_value. apply (Hin i x Hx).
  - intros i Hi. apply Hout. lia.
Qed.

(** X9: [VectorSgn(sgnVec, vec)] writes to [sgnVec_i] the sign of [vec_i] as
    a [double]: 1.0 above zero, -1.0 below zero and 0.0 otherwise (zeros of
    either sign and NaN); the elements of [sgnVec] past [vec.size()] and the
    length of [sgnVec] are kept. *)
Theorem VectorSgn_writes_signs (sgnVec vec : list float) :
  (length vec <= length sgnVec)%nat ->
  exists s : list float,
    VectorSgn sgnVec vec = Some s /\
    length s = length sgnVec /\
    (forall (i : nat) (x : float),
       vec !! i = Some x ->
       s !! i = Some (if PrimFloat.ltb 0 x then 1%float
                      else if PrimFloat.ltb x 0 then (-1)%float
                      else 0%float)) /\
    (forall i : nat, (length vec <= i)%nat -> s !! i = sgnVec !! i).
Proof.
  intros Hlen. exact (VectorSgn_double_spec sgnVec vec Hlen).
Qed.

Lemma VectorSgn_writes_signs_witness :
  exists s : list float,
    VectorSgn [9; 9; 9; 9; 9]%float [3; -2; 0; nan]%float = Some s /\
    length s = 5%nat /\
    (forall (i : nat) (x : float),
       [3; -2; 0; nan]%float !! i = Some x ->
       s !! i = Some (if PrimFloat.ltb 0 x then 1%float
                      else if PrimFloat.ltb x 0 then (-1)%float
                      else 0%float)) /\
    (forall i : nat, (4 <= i)%nat -> s !! i = [9; 9; 9; 9; 9]%float !! i).
Proof.
  apply (VectorSgn_writes_signs [9; 9; 9; 9; 9]%float [3; -2; 0; nan]%float).
  simpl. lia.
Defined.

(** X10: [VectorSgn] is idempotent on [double]s: the signs of a vector of
    signs are that vector. *)
Theorem VectorSgn_idempotent (sgnVec vec : list float) :
  length sgnVec = length vec ->
  exists s : list float,
    VectorSgn sgnVec vec = Some s /\
    (forall out : list float,
       length out = length s -> VectorSgn out s = Some s).
Proof.
  intros Hlen.
  destruct (VectorSgn_double_spec sgnVec vec) as (s & Hrun & Hlen' & Hin & _);
    [lia |].
  exists s. split; [exact Hrun |].
  intros out Hout.
  destruct (VectorSgn_double_spec out s) as (s2 & Hrun2 & Hlen2 & Hin2 & _);
    [lia |].
  rewrite Hrun2. f_equal. apply list_eq. intros i.
  destruct (s !! i) as [y |] eqn:Hy.
  - rewrite (Hin2 i y Hy).
    destruct (lookup_lt_is_Some_2 vec i) as [x Hx].
    { apply lookup_lt_Some in Hy. lia. }
    rewrite (Hin i x Hx) in Hy. apply (inj Some) in Hy. subst y.
    rewrite double_sgn_idempotent. reflexivity.
  - apply lookup_ge_None. apply lookup_ge_None in Hy. lia.
Qed.

Lemma VectorSgn_idempotent_witness :
  exists s : list float,
    VectorSgn [9; 9; 9]%float [3; -2; 0]%float = Some s /\
    (forall out : list float,
       length out = length s -> VectorSgn out s = Some s).
Proof.
  apply (VectorSgn_idempotent [9; 9; 9]%float [3; -2; 0]%float).
  reflexivity.
Defined.

(** X11: on [double]s [VectorL1] does not see the signs: negating every
    element of [a] leaves [VectorL1(a)] unchanged, bit for bit. *)
Theorem VectorL1_ignores_signs (a : list float) :
  VectorL1 (PrimFloat.opp <$> a) = VectorL1 a.
Proof.
  change (VectorL1 (sopp <$> a) = VectorL1 a).
  apply VectorL1_opp_invariant. exact double_abs_opp.
Qed.

(** ** The matrix container, cell by cell *)

Section MatrixExtras.
Context {T : Type} `{Scalar T}.
Implicit Types m : matrix T.

(** A cell within bounds reads the buffer at its offset. *)
Lemma matrix_get_reads_offset m (row col : Z) (x : T) :
  matrix_wf m -> m_dLeading m * m_dSecond m < 2 ^ 32 ->
  0 <= row < m_dLeading m -> 0 <= col < m_dSecond m ->
  m_data m !! Z.to_nat (row * m_dSecond m + col) = Some x ->
  matrix_get m row col = Ok x.
Proof.
  intros Hwf Hfit Hrow Hcol Hx.
  destruct (matrix_get_in_bounds m row col Hwf Hfit Hrow Hcol)
    as (x' & Hx' & Hget).
  rewrite Hget. congruence.
Qed.

(** Two cells within bounds share an offset only when they are the same
    cell. *)
Lemma matrix_offset_injective (dSecond row col row' col' : Z) :
  0 <= row -> 0 <= row' ->
  0 <= col < dSecond -> 0 <= col' < dSecond ->
  row * dSecond + col = row' * dSecond + col' ->
  row = row' /\ col = col'.
Proof.
  intros Hrow Hrow' Hcol Hcol' Heq.
  assert (row = row') by nia.
  subst row'. split; [reflexivity | lia].
Qed.

Lemma matrix_resize_reads m (dLeading dSecond row col : Z) :
  dLeading * dSecond < 2 ^ 32 ->
  0 <= row < dLeading -> 0 <= col < dSecond ->
  matrix_get (matrix_resize m dLeading dSecond) row col
  = Ok (default s0 (m_data m !! Z.to_nat (row * dSecond + col))).
Proof.
  intros Hfit Hrow Hcol.
  destruct (matrix_resize_wf m dLeading dSecond) as (HL & HS & Hwf);
    try lia.
  apply matrix_get_reads_offset; try assumption; try (rewrite ?HL, ?HS; lia).
  rewrite HS. unfold matrix_resize. simpl.
  rewrite to_uint_small by nia.
  assert (Hoff : 0 <= row * dSecond + col < dLeading * dSecond) by nia.
  destruct (m_data m !! Z.to_nat (row * dSecond + col)) as [x |] eqn:Hx.
  - rewrite lookup_resize; [exact Hx | lia |].
    apply lookup_lt_Some in Hx. exact Hx.
  - apply lookup_ge_None in Hx.
    apply lookup_resize_new; lia.
Qed.

(** X12: [resize] keeps the buffer, not the grid: the cell [(row, col)] of
    the resized matrix reads the element that the old buffer held at the new
    offset [row*dSecond + col], and 0 where the old buffer was shorter (a
    product of the new dimensions within an [unsigned int]). *)
Theorem matrix_resize_keeps_buffer_prefix m (dLeading dSecond row col : Z) :
  dLeading * dSecond < 2 ^ 32 ->
  0 <= row < dLeading -> 0 <= col < dSecond ->
  matrix_get (matrix_resize m dLeading dSecond) row col
  = Ok (default s0 (m_data m !! Z.to_nat (row * dSecond + col))).
Proof. exact (matrix_resize_reads m dLeading dSecond row col). Qed.

(** X13: a matrix built by [matrix(dLeading, dSecond)] reads 0 in every cell
    within its bounds. *)
Theorem matrix_new_reads_zero (dLeading dSecond row col : Z) :
  dLeading * dSecond < 2 ^ 32 ->
  0 <= row < dLeading -> 0 <= col < dSecond ->
  matrix_get (matrix_new (T := T) dLeading dSecond) row col = Ok s0.
Proof.
  intros Hfit Hrow Hcol. unfold matrix_new.
  rewrite matrix_resize_reads by assumption.
  reflexivity.
Qed.

(** X14: an assignment [m(row, col) = value] within bounds is read back by
    [m(row, col)], changes no other cell within bounds and keeps the
    dimensions and the length of the buffer. *)
Theorem matrix_set_then_get m (row col : Z) (value : T) :
  matrix_wf m -> m_dLeading m * m_dSecond m < 2 ^ 32 ->
  0 <= row < m_dLeading m -> 0 <= col < m_dSecond m ->
  exists m',
    matrix_set m row col value = Ok m' /\
    m_dLeading m' = m_dLeading m /\ m_dSecond m' = m_dSecond m /\
    matrix_wf m' /\
    matrix_get m' row col = Ok value /\
    (forall row' col' : Z,
       0 <= row' < m_dLeading m -> 0 <= col' < m_dSecond m ->
       (row', col') <> (row, col) ->
       matrix_get m' row' col' = matrix_get m row' col').
Proof.
  intros Hwf Hfit Hrow Hcol.
  eexists. split; [apply matrix_set_in_bounds; assumption |].
  set (m' := {| m_dLeading := m_dLeading m; m_dSecond := m_dSecond m;
                m_data := <[Z.to_nat (row * m_dSecond m + col) := value]>
                            (m_data m) |}).
  assert (Hwf' : matrix_wf m').
  { destruct Hwf as (HL & HS & Hsize). unfold matrix_wf, m', size in *.
    simpl. rewrite length_insert. auto. }
  destruct (matrix_offset_in_bounds m row col Hwf Hfit Hrow Hcol) as [_ Hoff].
  split; [reflexivity |]. split; [reflexivity |]. split; [exact Hwf' |].
  split.
  - apply matrix_get_reads_offset; try assumption.
    simpl. apply list_lookup_insert_eq. unfold size in Hoff. lia.
  - intros row' col' Hrow' Hcol' Hne.
    destruct (matrix_get_in_bounds m row' col' Hwf Hfit Hrow' Hcol')
      as (x & Hx & Hget).
    rewrite Hget.
    apply matrix_get_reads_offset; try assumption.
    simpl. rewrite list_lookup_insert_ne; [exact Hx |].
    intros Heq.
    destruct (matrix_offset_in_bounds m row' col' Hwf Hfit Hrow' Hcol')
      as [_ Hoff'].
    destruct (matrix_offset_injective (m_dSecond m) row col row' col')
      as [-> ->]; try lia.
    apply Hne. reflexivity.
Qed.

(** What [SetRow] writes, position by position of the buffer. *)
Lemma matrix_SetRow_spec m (row : Z) (rowBuffer : list T) :
  0 <= row -> 0 <= m_dSecond m -> row * m_dSecond m < 2 ^ 32 ->
  size rowBuffer < 2 ^ 31 ->
  row * m_dSecond m + size rowBuffer <= size (m_data m) ->
  exists m',
    matrix_SetRow m row rowBuffer = Some m' /\
    m_dLeading m' = m_dLeading m /\ m_dSecond m' = m_dSecond m /\
    length (m_data m') = length (m_data m) /\
    (forall k : nat,
       row * m_dSecond m <= Z.of_nat k < row * m_dSecond m + size rowBuffer ->
       m_data m' !! k
       = rowBuffer !! Z.to_nat (Z.of_nat k - row * m_dSecond m)) /\
    (forall k : nat,
       ~ (row * m_dSecond m <= Z.of_nat k
          < row * m_dSecond m + size rowBuffer) ->
       m_data m' !! k = m_data m !! k).
Proof.
  intros Hrow HS Hoff Hint Hfit.
  assert (0 <= size rowBuffer) by (unfold size; lia).
  unfold matrix_SetRow.
  rewrite to_uint_small by nia.
  rewrite to_int_small by lia.
  destruct (CopyVector_spec (m_data m) (row * m_dSecond m) rowBuffer 0
              (size rowBuffer))
    as (data & Hcopy & Hlen & Hin & Hout); try nia.
  rewrite Hcopy. simpl.
  eexists. split; [reflexivity |]. simpl.
  split; [reflexivity |]. split; [reflexivity |]. split; [exact Hlen |].
  split.
  - intros k Hk. rewrite Hin by exact Hk. f_equal.
  - exact Hout.
Qed.

(** X15: [SetRow(row, rowBuffer)] with a buffer of [secondDim] elements and
    [row] within bounds is read back cell by cell by [m(row, col)], keeps
    every other row and keeps the dimensions. *)
Theorem matrix_SetRow_then_get m (row : Z) (rowBuffer : list T) :
  matrix_wf m -> m_dLeading m * m_dSecond m < 2 ^ 32 ->
  0 <= row < m_dLeading m ->
  size rowBuffer = m_dSecond m -> size rowBuffer < 2 ^ 31 ->
  exists m',
    matrix_SetRow m row rowBuffer = Some m' /\
    m_dLeading m' = m_dLeading m /\ m_dSecond m' = m_dSecond m /\
    matrix_wf m' /\
    (forall (col : nat) (x : T),
       rowBuffer !! col = Some x -> matrix_get m' row (Z.of_nat col) = Ok x) /\
    (forall row' col' : Z,
       0 <= row' < m_dLeading m -> row' <> row -> 0 <= col' < m_dSecond m ->
       matrix_get m' row' col' = matrix_get m row' col').
Proof.
  intros Hwf Hfit Hrow Hsize Hint.
  pose proof Hwf as (HL & HS & Hdata).
  destruct (matrix_SetRow_spec m row rowBuffer)
    as (m' & Hrun & HL' & HS' & Hlen & Hin & Hout); try nia.
  assert (Hwf' : matrix_wf m').
  { unfold matrix_wf, size in *. rewrite HL', HS', Hlen. auto. }
  exists m'. split; [exact Hrun |].
  split; [exact HL' |]. split; [exact HS' |]. split; [exact Hwf' |].
  split.
  - intros col x Hx.
    pose proof (lookup_lt_Some _ _ _ Hx) as Hcol.
    apply matrix_get_reads_offset; try assumption;
      try (rewrite ?HL', ?HS'; unfold size in *; lia).
    rewrite HS', Hin by (unfold size in *; lia).
    rewrite <- Hx. f_equal. lia.
  - intros row' col' Hrow' Hne Hcol'.
    destruct (matrix_get_in_bounds m row' col' Hwf Hfit Hrow' Hcol')
      as (x & Hx & Hget).
    rewrite Hget.
    apply matrix_get_reads_offset; try assumption;
      try (rewrite ?HL', ?HS'; lia).
    rewrite HS', Hout; [exact Hx |].
    destruct (matrix_offset_in_bounds m row' col' Hwf Hfit Hrow' Hcol')
      as [_ Hoff'].
    nia.
Qed.

(** X16: [SetRow] does not check the length of [rowBuffer] against
    [secondDim]: the elements of a longer buffer are written on into the
    following row, [rowBuffer[secondDim + col]] landing in the cell
    [(row + 1, col)]. *)
Theorem matrix_SetRow_runs_into_next_row m (row : Z) (rowBuffer : list T) :
  matrix_wf m -> m_dLeading m * m_dSecond m < 2 ^ 32 ->
  0 <= row -> row + 1 < m_dLeading m ->
  size rowBuffer < 2 ^ 31 ->
  row * m_dSecond m + size rowBuffer <= size (m_data m) ->
  exists m',
    matrix_SetRow m row rowBuffer = Some m' /\
    (forall (col : Z) (x : T),
       0 <= col < m_dSecond m ->
       rowBuffer !! Z.to_nat (m_dSecond m + col) = Some x ->
       matrix_get m' (row + 1) col = Ok x).
Proof.
  intros Hwf Hfit Hrow Hnext Hint Hroom.
  pose proof Hwf as (HL & HS & Hdata).
  destruct (matrix_SetRow_spec m row rowBuffer)
    as (m' & Hrun & HL' & HS' & Hlen & Hin & _); try nia.
  assert (Hwf' : matrix_wf m').
  { unfold matrix_wf, size in *. rewrite HL', HS', Hlen. auto. }
  exists m'. split; [exact Hrun |].
  intros col x Hcol Hx.
  pose proof (lookup_lt_Some _ _ _ Hx) as Hlt.
  apply matrix_get_reads_offset; try assumption;
    try (rewrite ?HL', ?HS'; lia).
  rewrite HS', Hin by (unfold size in *; nia).
  rewrite <- Hx. f_equal. nia.
Qed.

End MatrixExtras.

Lemma matrix_resize_keeps_buffer_prefix_witness :
  matrix_get (matrix_resize matrix_2x3 3 2) 1 0
  = Ok (default s0 (m_data matrix_2x3 !! Z.to_nat (1 * 2 + 0))).
Proof.
  apply (matrix_resize_keeps_buffer_prefix matrix_2x3 3 2 1 0); lia.
Defined.

Lemma matrix_new_reads_zero_witness :
  matrix_get (matrix_new (T := float) 2 3) 1 2 = Ok s0.
Proof.
  apply (matrix_new_reads_zero (T := float) 2 3 1 2); lia.
Defined.

Lemma matrix_set_then_get_witness :
  exists m' : matrix float,
    matrix_set matrix_2x3 1 1 9%float = Ok m' /\
    m_dLeading m' = m_dLeading matrix_2x3 /\
    m_dSecond m' = m_dSecond matrix_2x3 /\
    matrix_wf m' /\
    matrix_get m' 1 1 = Ok 9%float /\
    (forall row' col' : Z,
       0 <= row' < m_dLeading matrix_2x3 ->
       0 <= col' < m_dSecond matrix_2x3 ->
       (row', col') <> (1, 1) ->
       matrix_get m' row' col' = matrix_get matrix_2x3 row' col').
Proof.
  apply (matrix_set_then_get matrix_2x3 1 1 9%float).
  - unfold matrix_wf, matrix_2x3, size. simpl. lia.
  - simpl. lia.
  - simpl. lia.
  - simpl. lia.
Defined.

Lemma matrix_SetRow_then_get_witness :
  exists m' : matrix float,
    matrix_SetRow matrix_2x3 1 [7; 8; 9]%float = Some m' /\
    m_dLeading m' = m_dLeading matrix_2x3 /\
    m_dSecond m' = m_dSecond matrix_2x3 /\
    matrix_wf m' /\
    (forall (col : nat) (x : float),
       [7; 8; 9]%float !! col = Some x ->
       matrix_get m' 1 (Z.of_nat col) = Ok x) /\
    (forall row' col' : Z,
       0 <= row' < m_dLeading matrix_2x3 -> row' <> 1 ->
       0 <= col' < m_dSecond matrix_2x3 ->
       matrix_get m' row' col' = matrix_get matrix_2x3 row' col').
Proof.
  apply (matrix_SetRow_then_get matrix_2x3 1 [7; 8; 9]%float).
  - unfold matrix_wf, matrix_2x3, size. simpl. lia.
  - simpl. lia.
  - simpl. lia.
  - reflexivity.
  - vm_compute. reflexivity.
Defined.

Lemma matrix_SetRow_runs_into_next_row_witness :
  exists m' : matrix float,
    matrix_SetRow matrix_2x3 0 [7; 8; 9; 10]%float = Some m' /\
    (forall (col : Z) (x : float),
       0 <= col < m_dSecond matrix_2x3 ->
       [7; 8; 9; 10]%float !! Z.to_nat (m_dSecond matrix_2x3 + col) = Some x ->
       matrix_get m' (0 + 1) col = Ok x).
Proof.
  apply (matrix_SetRow_runs_into_next_row matrix_2x3 0 [7; 8; 9; 10]%float).
  - unfold matrix_wf, matrix_2x3, size. simpl. lia.
  - simpl. lia.
  - lia.
  - simpl. lia.
  - vm_compute. reflexivity.
  - vm_compute. discriminate.
Defined.

(** ** Random vectors of different lengths *)

Section RandomExtras.
Context {T : Type} `{Scalar T}.
Variable distribution : T -> T -> (Z -> Z * Z) -> Z -> T * Z.

Lemma SetToRandomVector_loop_prefix (lo hi : T) (vec1 : list T) :
  forall (vec2 : list T) (generator : Z),
    (length vec1 <= length vec2)%nat ->
    (SetToRandomVector_loop distribution vec1 lo hi generator).1
    = take (length vec1)
        (SetToRandomVector_loop distribution vec2 lo hi generator).1.
Proof.
  induction vec1 as [| x1 vec1 IH]; intros vec2 generator Hlen.
  - reflexivity.
  - destruct vec2 as [| x2 vec2]; [simpl in Hlen; lia |].
    simpl.
    destruct (distribution lo hi minstd_rand_call generator) as [it generator'].
    specialize (IH vec2 generator' ltac:(simpl in Hlen; lia)).
    destruct (SetToRandomVector_loop distribution vec1 lo hi generator')
      as [rest1 g1].
    destruct (SetToRandomVector_loop distribution vec2 lo hi generator')
      as [rest2 g2].
    simpl in *. rewrite IH. reflexivity.
Qed.

(** X17: with the same scale and seed, the elements that [SetToRandomVector]
    writes into a shorter vector are the first elements of those it writes
    into a longer one: the sequence does not depend on the length. *)
Theorem SetToRandomVector_prefix (vec1 vec2 : list T) (scale : T) (seed : Z) :
  (length vec1 <= length vec2)%nat ->
  SetToRandomVector distribution vec1 scale seed
  = take (length vec1) (SetToRandomVector distribution vec2 scale seed).
Proof.
  intros Hlen. unfold SetToRandomVector.
  apply SetToRandomVector_loop_prefix. exact Hlen.
Qed.

End RandomExtras.

Lemma SetToRandomVector_prefix_witness :
  SetToRandomVector two_draw_distribution [0; 0]%float 1%float 42
  = take (length [0; 0]%float)
      (SetToRandomVector two_draw_distribution [1; 2; 3]%float 1%float 42).
Proof.
  apply (SetToRandomVector_prefix two_draw_distribution
           [0; 0]%float [1; 2; 3]%float 1%float 42).
  simpl. lia.
Defined.

(** ** The invariant of the container *)

(** X18: as long as the product of the dimensions fits an [unsigned int],
    [resize(dLeading, dSecond)] and the constructor
    [matrix(dLeading, dSecond)] set the two dimensions and leave a buffer of
    exactly [dLeading * dSecond] elements. *)
Theorem matrix_resize_establishes_invariant
  {T : Type} `{Scalar T} (m : matrix T) (dLeading dSecond : Z) :
  0 <= dLeading -> 0 <= dSecond -> dLeading * dSecond < 2 ^ 32 ->
  (m_dLeading (matrix_resize m dLeading dSecond) = dLeading /\
   m_dSecond (matrix_resize m dLeading dSecond) = dSecond /\
   size (m_data (matrix_resize m dLeading dSecond)) = dLeading * dSecond) /\
  (m_dLeading (matrix_new (T := T) dLeading dSecond) = dLeading /\
   m_dSecond (matrix_new (T := T) dLeading dSecond) = dSecond /\
   size (m_data (matrix_new (T := T) dLeading dSecond)) = dLeading * dSecond).
Proof.
  intros HL HS Hfit.
  assert (Hany : forall m0 : matrix T,
             m_dLeading (matrix_resize m0 dLeading dSecond) = dLeading /\
             m_dSecond (matrix_resize m0 dLeading dSecond) = dSecond /\
             size (m_data (matrix_resize m0 dLeading dSecond))
             = dLeading * dSecond).
  { intros m0.
    destruct (matrix_resize_wf m0 dLeading dSecond HL HS Hfit)
      as (HL' & HS' & _ & _ & Hsize).
    rewrite HL', HS' in Hsize. auto. }
  split; [apply Hany |]. unfold matrix_new. apply Hany.
Qed.

Lemma matrix_resize_establishes_invariant_witness :
  (m_dLeading (matrix_resize matrix_2x3 3 4) = 3 /\
   m_dSecond (matrix_resize matrix_2x3 3 4) = 4 /\
   size (m_data (matrix_resize matrix_2x3 3 4)) = 3 * 4) /\
  (m_dLeading (matrix_new (T := float) 3 4) = 3 /\
   m_dSecond (matrix_new (T := float) 3 4) = 4 /\
   size (m_data (matrix_new (T := float) 3 4)) = 3 * 4).
Proof.
  apply (matrix_resize_establishes_invariant matrix_2x3 3 4); lia.
Defined.

(** ** The Hadamard product on [double]s *)


